(** * LazyLoader: a shallow embedding of [lazyLoader.js]

    The class keeps a [Map] from generated ids to observation records and
    delegates visibility detection to the platform's [IntersectionObserver].
    The embedding threads a world (the loader instance and the platform's
    observers) through a small state-and-trace monad: every call the class
    makes to the platform, to its own [Map] or to a caller-supplied function
    is emitted, in program order, as an [Event].

    Modelling conventions.
    - A JS value that may be [undefined] is an [option].
    - The number [0.1] is passed through and never computed with; it is the
      rational [1 # 10].
    - Caller-supplied functions are opaque: they are named, their calls are
      recorded with their arguments, and they neither throw nor call back
      into the loader.
    - [Math.random().toString(36)] is an input of [observe]. *)

From Stdlib Require Import QArith.
From stdpp Require Import base strings list.

Local Open Scope nat_scope.

(** ** Data model *)

Definition Id := string.
Definition Element := nat.
Definition ObserverRef := nat.

(** A function value supplied by the caller, or the arrow function
    [() => {}] that [observe] substitutes for a missing hook. *)
Inductive Func :=
| Noop
| UserFn (name : nat).

(** An [IntersectionObserverEntry], reduced to the two fields the class reads. *)
Record Entry := mkEntry {
  target : Element;
  isIntersecting : bool
}.

(** The [options] argument of the constructor. *)
Record LoaderOptions := mkLoaderOptions {
  opt_threshold : option Q;
  opt_rootMargin : option string
}.

(** The [options] argument of [observe]. *)
Record ObserveOptions := mkObserveOptions {
  opt_beforeUnobserve : option Func;
  opt_afterUnobserve : option Func
}.

(** A value of the [observers] map:
    [{observer, element, beforeUnobserve, afterUnobserve}]. *)
Record ObserverRecord := mkObserverRecord {
  observer : ObserverRef;
  element : Element;
  beforeUnobserve : Func;
  afterUnobserve : Func
}.

(** A JS [Map] iterates in insertion order and holds each key once. *)
Abbreviation ObserverMap := (list (Id * ObserverRecord)).

Record LazyLoader := mkLazyLoader {
  threshold : option Q;
  rootMargin : option string;
  observers : ObserverMap
}.

(** A platform [IntersectionObserver]: the callback its handler closes over,
    the configuration it was built with and the targets it tracks. *)
Record IntersectionObserver := mkIntersectionObserver {
  io_callback : Func;
  io_threshold : option Q;
  io_rootMargin : option string;
  io_targets : list Element
}.

Record World := mkWorld {
  loader : LazyLoader;
  platform : list IntersectionObserver
}.

(** What the program does, in program order.  A call of a caller-supplied
    function carries the keys of [this.observers] at the moment of the call. *)
Inductive Event :=
| EvNewObserver (o : ObserverRef) (th : option Q) (rm : option string)
| EvObserve (o : ObserverRef) (el : Element)
| EvUnobserve (o : ObserverRef) (el : Element)
| EvDisconnect (o : ObserverRef)
| EvSet (id : Id)
| EvDelete (id : Id)
| EvClear
| EvCallback (o : ObserverRef) (f : Func) (entry : Entry) (keys : list Id)
| EvBefore (f : Func) (el : Element) (o : ObserverRef) (keys : list Id)
| EvAfter (f : Func) (el : Element) (o : ObserverRef) (keys : list Id).

#[global] Instance Func_eq_dec : EqDecision Func.
Proof. solve_decision. Defined.

#[global] Instance Entry_eq_dec : EqDecision Entry.
Proof. solve_decision. Defined.

(** ** The [Map] operations the class uses *)

Module JsMap.

Fixpoint get (id : Id) (m : ObserverMap) : option ObserverRecord :=
  match m with
  | [] => None
  | (k, v) :: m' => if decide (k = id) then Some v else get id m'
  end.

Definition has (id : Id) (m : ObserverMap) : bool :=
  match get id m with
  | Some _ => true
  | None => false
  end.

(** [set] on a present key replaces the value in place; on an absent key it
    appends. *)
Fixpoint set (id : Id) (v : ObserverRecord) (m : ObserverMap) : ObserverMap :=
  match m with
  | [] => [(id, v)]
  | (k, v') :: m' =>
      if decide (k = id) then (k, v) :: m' else (k, v') :: set id v m'
  end.

Definition delete (id : Id) (m : ObserverMap) : ObserverMap :=
  filter (fun kv => kv.1 <> id) m.

Definition keys (m : ObserverMap) : list Id := map fst m.

Definition values (m : ObserverMap) : list ObserverRecord := map snd m.

End JsMap.

(** ** The state-and-trace monad *)

Definition M (A : Type) : Type := World -> A * World * list Event.

Definition ret {A} (a : A) : M A := fun w => (a, w, []).

Definition bind {A B} (m : M A) (f : A -> M B) : M B :=
  fun w =>
    let '(a, w1, t1) := m w in
    let '(b, w2, t2) := f a w1 in
    (b, w2, t1 ++ t2).

Notation "x <- m ;; k" := (bind m (fun x => k))
  (at level 100, m at next level, k at level 200, right associativity).
Notation "m ;; k" := (bind m (fun _ => k))
  (at level 100, k at level 200, right associativity).

Definition emit (e : Event) : M unit := fun w => (tt, w, [e]).

Definition getLoader : M LazyLoader := fun w => (loader w, w, []).

Definition setObservers (m : ObserverMap) : M unit := fun w =>
  (tt,
   mkWorld (mkLazyLoader (threshold (loader w)) (rootMargin (loader w)) m)
           (platform w),
   []).

Definition setPlatform (p : list IntersectionObserver) : M unit := fun w =>
  (tt, mkWorld (loader w) p, []).

Definition getPlatform : M (list IntersectionObserver) :=
  fun w => (platform w, w, []).

(** [xs.forEach(f)] *)
Fixpoint forEach {A} (f : A -> M unit) (xs : list A) : M unit :=
  match xs with
  | [] => ret tt
  | x :: xs' => f x ;; forEach f xs'
  end.

Definition world_of {A} (r : A * World * list Event) : World := r.1.2.
Definition trace_of {A} (r : A * World * list Event) : list Event := r.2.
Definition value_of {A} (r : A * World * list Event) : A := r.1.1.

(** ** The platform: [IntersectionObserver] *)

Definition withTargets (io : IntersectionObserver) (ts : list Element)
  : IntersectionObserver :=
  mkIntersectionObserver (io_callback io) (io_threshold io) (io_rootMargin io) ts.

Definition tracks (p : list IntersectionObserver) (o : ObserverRef)
  (el : Element) : bool :=
  match p !! o with
  | Some io => bool_decide (el ∈ io_targets io)
  | None => false
  end.

(** [new IntersectionObserver(handler, {threshold, rootMargin})], where
    [handler] is the arrow function of [observe] closing over [callback]. *)
Definition newIntersectionObserver (callback : Func) (th : option Q)
  (rm : option string) : M ObserverRef :=
  p <- getPlatform ;;
  setPlatform (p ++ [mkIntersectionObserver callback th rm []]) ;;
  emit (EvNewObserver (length p) th rm) ;;
  ret (length p).

(** The three methods of an observer act on its set of targets; called on
    an observer reference the platform does not know, they change nothing. *)
Module Platform.

Definition update (o : ObserverRef) (f : list Element -> list Element)
  (p : list IntersectionObserver) : list IntersectionObserver :=
  match p !! o with
  | Some io => <[o := withTargets io (f (io_targets io))]> p
  | None => p
  end.

(** A target already tracked is not added again. *)
Definition observe (o : ObserverRef) (el : Element) :=
  update o (fun ts => if bool_decide (el ∈ ts) then ts else ts ++ [el]).

Definition unobserve (o : ObserverRef) (el : Element) :=
  update o (filter (fun t => t <> el)).

Definition disconnect (o : ObserverRef) :=
  update o (fun _ => []).

End Platform.

(** [observer.observe(el)] *)
Definition io_observe (o : ObserverRef) (el : Element) : M unit :=
  p <- getPlatform ;;
  setPlatform (Platform.observe o el p) ;;
  emit (EvObserve o el).

(** [observer.unobserve(el)] *)
Definition io_unobserve (o : ObserverRef) (el : Element) : M unit :=
  p <- getPlatform ;;
  setPlatform (Platform.unobserve o el p) ;;
  emit (EvUnobserve o el).

(** [observer.disconnect()] *)
Definition io_disconnect (o : ObserverRef) : M unit :=
  p <- getPlatform ;;
  setPlatform (Platform.disconnect o p) ;;
  emit (EvDisconnect o).

(** ** The class *)

Definition defaultLoaderOptions : LoaderOptions :=
  mkLoaderOptions (Some (1 # 10)%Q) (Some "0px"%string).

(** [constructor(options = {threshold: 0.1, rootMargin: '0px'})] *)
Definition constructor (options : option LoaderOptions) : LazyLoader :=
  let options := default defaultLoaderOptions options in
  mkLazyLoader (opt_threshold options) (opt_rootMargin options) [].

Definition newWorld (options : option LoaderOptions) : World :=
  mkWorld (constructor options) [].

(** [#generateId()]; [r1] and [r2] are the two [Math.random().toString(36)]
    strings, and [s.substring(2, 15)] keeps at most thirteen characters. *)
Definition generateId (r1 r2 : string) : Id :=
  (String.substring 2 13 r1 ++ String.substring 2 13 r2)%string.

(** [f || (() => {})] *)
Definition orNoop (f : option Func) : Func := default Noop f.

Definition callCallback (o : ObserverRef) (f : Func) (entry : Entry) : M unit :=
  l <- getLoader ;;
  emit (EvCallback o f entry (JsMap.keys (observers l))).

Definition callBefore (r : ObserverRecord) : M unit :=
  l <- getLoader ;;
  emit (EvBefore (beforeUnobserve r) (element r) (observer r)
                 (JsMap.keys (observers l))).

Definition callAfter (r : ObserverRecord) : M unit :=
  l <- getLoader ;;
  emit (EvAfter (afterUnobserve r) (element r) (observer r)
                (JsMap.keys (observers l))).

(** The arrow function handed to [new IntersectionObserver]; the platform
    passes the observer itself as second argument. *)
Definition handleEntry (callback : Func) (o : ObserverRef) (entry : Entry)
  : M unit :=
  if isIntersecting entry then
    callCallback o callback entry ;;
    io_unobserve o (target entry)
  else ret tt.

Definition handler (callback : Func) (entries : list Entry) (o : ObserverRef)
  : M unit :=
  forEach (handleEntry callback o) entries.

Definition mapSet (id : Id) (r : ObserverRecord) : M unit :=
  l <- getLoader ;;
  setObservers (JsMap.set id r (observers l)) ;;
  emit (EvSet id).

Definition mapDelete (id : Id) : M unit :=
  l <- getLoader ;;
  setObservers (JsMap.delete id (observers l)) ;;
  emit (EvDelete id).

Definition mapClear : M unit :=
  setObservers [] ;;
  emit EvClear.

(** [#unobserve(id)] *)
Definition unobserve (id : Id) : M unit :=
  l <- getLoader ;;
  if negb (JsMap.has id (observers l)) then ret tt
  else
    match JsMap.get id (observers l) with
    | Some r =>
        callBefore r ;;
        io_unobserve (observer r) (element r) ;;
        mapDelete id ;;
        callAfter r
    | None => ret tt
    end.

(** [observe(callback, element, options = {})]; the value returned stands for
    the closure [() => this.#unobserve(id)], run by [stop]. *)
Definition observe (r1 r2 : string) (callback : Func) (el : Element)
  (options : option ObserveOptions) : M Id :=
  let id := generateId r1 r2 in
  let options := default (mkObserveOptions None None) options in
  let before := orNoop (opt_beforeUnobserve options) in
  let after := orNoop (opt_afterUnobserve options) in
  l <- getLoader ;;
  o <- newIntersectionObserver callback (threshold l) (rootMargin l) ;;
  io_observe o el ;;
  mapSet id (mkObserverRecord o el before after) ;;
  ret id.

Definition stop (id : Id) : M unit := unobserve id.

(** [disconnect()] *)
Definition disconnect : M unit :=
  l <- getLoader ;;
  forEach (fun r =>
             callBefore r ;;
             io_disconnect (observer r) ;;
             callAfter r)
          (JsMap.values (observers l)) ;;
  mapClear.

(** ** Delivery of intersection reports by the platform

    The platform calls an observer's handler with a batch of entries; it
    reports only on targets the observer tracks when the batch is handed
    over. *)
Definition deliver (o : ObserverRef) (entries : list Entry) : M unit :=
  p <- getPlatform ;;
  match p !! o with
  | Some io =>
      handler (io_callback io)
              (filter (fun e => target e ∈ io_targets io) entries) o
  | None => ret tt
  end.

(** ** Sequences of operations and reachable worlds *)

Inductive Op :=
| OpObserve (r1 r2 : string) (callback : Func) (el : Element)
            (options : option ObserveOptions)
| OpStop (id : Id)
| OpDisconnect
| OpDeliver (o : ObserverRef) (entries : list Entry).

Definition step (op : Op) : M unit :=
  match op with
  | OpObserve r1 r2 callback el options =>
      observe r1 r2 callback el options ;; ret tt
  | OpStop id => stop id
  | OpDisconnect => disconnect
  | OpDeliver o entries => deliver o entries
  end.

Definition run (ops : list Op) : M unit := forEach step ops.

Definition reachable (w : World) : Prop :=
  exists options ops, w = world_of (run ops (newWorld options)).

(** ** Predicates on worlds and traces *)

(** Every record of the map has a watcher that still tracks its target. *)
Definition recordActive (w : World) (r : ObserverRecord) : bool :=
  tracks (platform w) (observer r) (element r).

Definition allActive (w : World) : Prop :=
  forall id r, (id, r) ∈ observers (loader w) -> recordActive w r = true.

Definition allActiveb (w : World) : bool :=
  forallb (recordActive w) (JsMap.values (observers (loader w))).

(** Records of the map own pairwise distinct observers, all of them created
    by the platform. *)
Definition wf (w : World) : Prop :=
  NoDup (JsMap.keys (observers (loader w))) /\
  NoDup (map observer (JsMap.values (observers (loader w)))) /\
  Forall (fun r => observer r < length (platform w))
         (JsMap.values (observers (loader w))).

Definition isCallback (e : Event) : bool :=
  match e with EvCallback _ _ _ _ => true | _ => false end.

Definition isBefore (e : Event) : bool :=
  match e with EvBefore _ _ _ _ => true | _ => false end.

Definition isAfter (e : Event) : bool :=
  match e with EvAfter _ _ _ _ => true | _ => false end.

Definition isHook (e : Event) : bool := isBefore e || isAfter e.

(** The observer a call or a platform instruction is about. *)
Definition eventObserver (e : Event) : option ObserverRef :=
  match e with
  | EvNewObserver o _ _ | EvObserve o _ | EvUnobserve o _ | EvDisconnect o
  | EvCallback o _ _ _ | EvBefore _ _ o _ | EvAfter _ _ o _ => Some o
  | EvSet _ | EvDelete _ | EvClear => None
  end.

Definition count (p : Event -> bool) (t : list Event) : nat :=
  length (List.filter p t).

(** The entries of a batch that report [el] intersecting. *)
Definition firing (el : Element) (b : list Entry) : list Entry :=
  List.filter (fun e => isIntersecting e && bool_decide (target e = el)) b.

(** What [disconnect] does for one record, [keys] being the keys of the map. *)
Definition teardown (keys : list Id) (r : ObserverRecord) : list Event :=
  [EvBefore (beforeUnobserve r) (element r) (observer r) keys;
   EvDisconnect (observer r);
   EvAfter (afterUnobserve r) (element r) (observer r) keys].

(** What the handler does for one entry. *)
Definition fire (callback : Func) (o : ObserverRef) (keys : list Id)
  (e : Entry) : list Event :=
  if isIntersecting e then [EvCallback o callback e keys; EvUnobserve o (target e)]
  else [].

(** ** Sample worlds *)

Definition sampleOptions : ObserveOptions :=
  mkObserveOptions (Some (UserFn 2)) (Some (UserFn 3)).

(** One registration of element 7, with both hooks. *)
Definition world1 : World :=
  world_of (observe "0.abcdefghijklmnopq" "0.xyz" (UserFn 1) 7
                    (Some sampleOptions) (newWorld None)).

(** A second registration, of element 8, without hooks. *)
Definition world2 : World :=
  world_of (observe "0.k3" "0.9f" (UserFn 4) 8 None world1).

Definition id1 : Id := "abcdefghijklmxyz"%string.
Definition id2 : Id := "k39f"%string.

(** ** The world after each operation *)

Definition afterStop (id : Id) (r : ObserverRecord) (w : World) : World :=
  mkWorld
    (mkLazyLoader (threshold (loader w)) (rootMargin (loader w))
                  (JsMap.delete id (observers (loader w))))
    (Platform.unobserve (observer r) (element r) (platform w)).

Definition disconnectAll (rs : list ObserverRecord)
  (p : list IntersectionObserver) : list IntersectionObserver :=
  foldl (fun p r => Platform.disconnect (observer r) p) p rs.

(** The platform after the handler has run over a batch. *)
Definition unobserveAll (o : ObserverRef) (es : list Entry)
  (p : list IntersectionObserver) : list IntersectionObserver :=
  foldl (fun p e => if isIntersecting e then Platform.unobserve o (target e) p
                    else p) p es.

Definition reported (w : World) (o : ObserverRef) (es : list Entry)
  : list Entry :=
  match platform w !! o with
  | Some io => filter (fun e => target e ∈ io_targets io) es
  | None => []
  end.

Definition newRecord (w : World) (el : Element)
  (options : option ObserveOptions) : ObserverRecord :=
  let options := default (mkObserveOptions None None) options in
  mkObserverRecord (length (platform w)) el
                   (orNoop (opt_beforeUnobserve options))
                   (orNoop (opt_afterUnobserve options)).

Definition afterObserve (id : Id) (callback : Func) (el : Element)
  (options : option ObserveOptions) (w : World) : World :=
  mkWorld
    (mkLazyLoader (threshold (loader w)) (rootMargin (loader w))
                  (JsMap.set id (newRecord w el options) (observers (loader w))))
    (platform w ++
       [mkIntersectionObserver callback (threshold (loader w))
                               (rootMargin (loader w)) [el]]).

(** The configuration of the loader is fixed at construction. *)
Definition sameConfig (l1 l2 : LazyLoader) : Prop :=
  threshold l1 = threshold l2 /\ rootMargin l1 = rootMargin l2.

(** ** Successive deliveries to one observer *)

Definition deliverAll (o : ObserverRef) (batches : list (list Entry)) : M unit :=
  forEach (deliver o) batches.

(** The firing entries of the first batch that has one. *)
Fixpoint firstFiring (el : Element) (batches : list (list Entry)) : list Entry :=
  match batches with
  | [] => []
  | b :: bs =>
      match firing el b with
      | [] => firstFiring el bs
      | es => es
      end
  end.

(** ** What an event shows *)

Definition seenKeys (e : Event) : option (list Id) :=
  match e with
  | EvCallback _ _ _ keys | EvBefore _ _ _ keys | EvAfter _ _ _ keys => Some keys
  | _ => None
  end.

Definition concerns (o : ObserverRef) (e : Event) : Prop :=
  eventObserver e = Some o.

(** ** A world in which a registration has fired *)

Definition intersecting7 : Entry := mkEntry 7 true.

(** [world1] after the platform has reported element 7 intersecting. *)
Definition worldFired : World := world_of (deliver 0 [intersecting7] world1).

(** ** Further predicates on runs and worlds *)

(** An operation that delivers no intersecting report. *)
Definition quietOp (op : Op) : Prop :=
  match op with
  | OpDeliver _ es => Forall (fun e => isIntersecting e = false) es
  | _ => True
  end.

(** The observer of a record tracks nothing but the record's element. *)
Definition ownTargets (w : World) : Prop :=
  forall id r t, (id, r) ∈ observers (loader w) ->
                 tracks (platform w) (observer r) t = true -> t = element r.

(** An observer built with the threshold and rootMargin of a loader. *)
Definition configuredAs (l : LazyLoader) (io : IntersectionObserver) : Prop :=
  io_threshold io = threshold l /\ io_rootMargin io = rootMargin l.

(** The hook a caller supplied in [options], if any. *)
Definition supplied (options : option ObserveOptions)
  (field : ObserveOptions -> option Func) : option Func :=
  match options with
  | Some opts => field opts
  | None => None
  end.

(** The number of [observe] calls among the operations of a run. *)
Definition isObserveOp (op : Op) : bool :=
  match op with
  | OpObserve _ _ _ _ _ => true
  | _ => false
  end.

Definition observeCalls (ops : list Op) : nat :=
  length (List.filter isObserveOp ops).

(** [world1] after a second registration that draws the same id. *)
Definition worldCollided : World :=
  world_of (observe "0.abcdefghijklmnopq" "0.xyz" (UserFn 5) 9 None world1).

(** ** Facts about the [Map] operations *)

Section JsMapFacts.

Implicit Types (m : ObserverMap) (id k : Id) (r v : ObserverRecord).

Lemma get_delete_eq id m : JsMap.get id (JsMap.delete id m) = None.
Proof.
  unfold JsMap.delete. induction m as [|[k v] m IH]; [done|].
  rewrite filter_cons. simpl. destruct (decide (k <> id)) as [Hk|Hk]; simpl.
  - destruct (decide (k = id)); [done|apply IH].
  - apply IH.
Qed.

Lemma get_delete_ne id k m :
  k <> id -> JsMap.get k (JsMap.delete id m) = JsMap.get k m.
Proof.
  intros Hne. unfold JsMap.delete. induction m as [|[k' v] m IH]; [done|].
  rewrite filter_cons. simpl. destruct (decide (k' <> id)) as [Hk|Hk]; simpl.
  - destruct (decide (k' = k)); [done|apply IH].
  - destruct (decide (k' = k)) as [->|]; [|apply IH].
    exfalso. apply Hk. done.
Qed.

Lemma get_set_eq id v m : JsMap.get id (JsMap.set id v m) = Some v.
Proof.
  induction m as [|[k v'] m IH]; simpl.
  - destruct (decide (id = id)); done.
  - destruct (decide (k = id)) as [Hk|Hk]; simpl.
    + destruct (decide (k = id)); done.
    + destruct (decide (k = id)); [done|apply IH].
Qed.

Lemma get_set_ne id k v m :
  k <> id -> JsMap.get k (JsMap.set id v m) = JsMap.get k m.
Proof.
  intros Hne. induction m as [|[k' v'] m IH]; simpl.
  - destruct (decide (id = k)); [congruence|done].
  - destruct (decide (k' = id)) as [Hk|Hk]; simpl.
    + destruct (decide (k' = k)); [congruence|done].
    + destruct (decide (k' = k)); [done|apply IH].
Qed.

Lemma get_Some_elem id r m : JsMap.get id m = Some r -> (id, r) ∈ m.
Proof.
  induction m as [|[k v] m IH]; simpl; [done|].
  destruct (decide (k = id)) as [->|].
  - intros [= ->]. left.
  - intros H. right. auto.
Qed.

Lemma get_Some_key id r m : JsMap.get id m = Some r -> id ∈ JsMap.keys m.
Proof.
  intros H%get_Some_elem. unfold JsMap.keys.
  apply list_elem_of_fmap. exists (id, r). done.
Qed.

Lemma get_Some_value id r m : JsMap.get id m = Some r -> r ∈ JsMap.values m.
Proof.
  intros H%get_Some_elem. unfold JsMap.values.
  apply list_elem_of_fmap. exists (id, r). done.
Qed.

Lemma get_None_key id m : JsMap.get id m = None -> id ∉ JsMap.keys m.
Proof.
  induction m as [|[k v] m IH]; simpl.
  - intros _ H. inversion H.
  - destruct (decide (k = id)); [done|].
    intros H Hin. apply elem_of_cons in Hin as [Hin|Hin]; [congruence|].
    by apply IH.
Qed.

Lemma values_delete_subseteq id m :
  JsMap.values (JsMap.delete id m) ⊆ JsMap.values m.
Proof.
  intros r. unfold JsMap.values, JsMap.delete.
  rewrite !list_elem_of_fmap. intros [kv [-> Hin]].
  apply list_elem_of_filter in Hin as [_ Hin]. eauto.
Qed.

End JsMapFacts.

(** ** What each operation computes *)

Ltac run_monad :=
  unfold bind, ret, emit, getLoader, getPlatform, setObservers, setPlatform;
  simpl.

Lemma unobserve_absent id w :
  JsMap.get id (observers (loader w)) = None ->
  unobserve id w = (tt, w, []).
Proof.
  intros H. unfold unobserve, JsMap.has. run_monad. by rewrite H.
Qed.

Lemma unobserve_present id r w :
  JsMap.get id (observers (loader w)) = Some r ->
  unobserve id w =
    (tt, afterStop id r w,
     [EvBefore (beforeUnobserve r) (element r) (observer r)
               (JsMap.keys (observers (loader w)));
      EvUnobserve (observer r) (element r);
      EvDelete id;
      EvAfter (afterUnobserve r) (element r) (observer r)
              (JsMap.keys (JsMap.delete id (observers (loader w))))]).
Proof.
  intros H. unfold unobserve, JsMap.has, callBefore, callAfter, io_unobserve,
    mapDelete. run_monad. by rewrite H.
Qed.

Lemma forEach_teardown rs l p :
  forEach (fun r => callBefore r ;; io_disconnect (observer r) ;; callAfter r)
          rs (mkWorld l p)
  = (tt, mkWorld l (disconnectAll rs p),
     flat_map (teardown (JsMap.keys (observers l))) rs).
Proof.
  revert p. induction rs as [|r rs IH]; intros p; [done|].
  simpl forEach. unfold bind at 1.
  unfold callBefore, io_disconnect, callAfter. run_monad.
  by rewrite IH.
Qed.

Lemma disconnect_spec w :
  disconnect w =
    (tt,
     mkWorld (mkLazyLoader (threshold (loader w)) (rootMargin (loader w)) [])
             (disconnectAll (JsMap.values (observers (loader w))) (platform w)),
     flat_map (teardown (JsMap.keys (observers (loader w))))
              (JsMap.values (observers (loader w))) ++ [EvClear]).
Proof.
  destruct w as [l p]. unfold disconnect, mapClear.
  unfold bind at 1 2. unfold getLoader at 1. simpl.
  rewrite forEach_teardown. run_monad. done.
Qed.

Lemma handleEntry_spec callback o e w :
  handleEntry callback o e w =
    (tt,
     if isIntersecting e
     then mkWorld (loader w) (Platform.unobserve o (target e) (platform w))
     else w,
     fire callback o (JsMap.keys (observers (loader w))) e).
Proof.
  unfold handleEntry, fire, callCallback, io_unobserve.
  destruct (isIntersecting e); run_monad; done.
Qed.

Lemma count_app p t1 t2 : count p (t1 ++ t2) = count p t1 + count p t2.
Proof. unfold count. by rewrite List.filter_app, length_app. Qed.

Lemma count_teardown keys rs :
  count isBefore (flat_map (teardown keys) rs) = length rs /\
  count isAfter (flat_map (teardown keys) rs) = length rs /\
  count isCallback (flat_map (teardown keys) rs) = 0.
Proof.
  induction rs as [|r rs (IH1 & IH2 & IH3)]; [done|].
  cbn [flat_map]. rewrite !count_app, IH1, IH2, IH3. done.
Qed.

(** ** Facts about the platform *)

Section PlatformFacts.

Implicit Types (p : list IntersectionObserver) (o : ObserverRef)
  (el : Element) (io : IntersectionObserver).

Lemma update_length o f p : length (Platform.update o f p) = length p.
Proof.
  unfold Platform.update. destruct (p !! o); [|done]. by rewrite length_insert.
Qed.

Lemma update_lookup_ne o o' f p :
  o' <> o -> Platform.update o f p !! o' = p !! o'.
Proof.
  intros Hne. unfold Platform.update. destruct (p !! o); [|done].
  by rewrite list_lookup_insert_ne.
Qed.

Lemma update_lookup_eq o f p io :
  p !! o = Some io ->
  Platform.update o f p !! o = Some (withTargets io (f (io_targets io))).
Proof.
  intros H. unfold Platform.update. rewrite H.
  apply list_lookup_insert_eq. by eapply lookup_lt_Some.
Qed.

Lemma update_lookup_None o o' f p :
  p !! o' = None -> Platform.update o f p !! o' = None.
Proof.
  intros H. apply lookup_ge_None. rewrite update_length.
  by apply lookup_ge_None.
Qed.

Lemma tracks_update_ne o o' f p el :
  o' <> o -> tracks (Platform.update o f p) o' el = tracks p o' el.
Proof. intros Hne. unfold tracks. by rewrite update_lookup_ne. Qed.

Lemma tracks_unobserve o p el : tracks (Platform.unobserve o el p) o el = false.
Proof.
  unfold tracks, Platform.unobserve. destruct (p !! o) as [io|] eqn:Hio.
  - rewrite (update_lookup_eq _ _ _ _ Hio). simpl.
    apply bool_decide_eq_false. intros Hin%list_elem_of_filter. tauto.
  - by rewrite update_lookup_None.
Qed.

Lemma tracks_disconnect o p el : tracks (Platform.disconnect o p) o el = false.
Proof.
  unfold tracks, Platform.disconnect. destruct (p !! o) as [io|] eqn:Hio.
  - by rewrite (update_lookup_eq _ _ _ _ Hio).
  - by rewrite update_lookup_None.
Qed.

Lemma tracks_disconnect_false o o' p el :
  tracks p o' el = false -> tracks (Platform.disconnect o p) o' el = false.
Proof.
  intros H. destruct (decide (o' = o)) as [->|Hne].
  - apply tracks_disconnect.
  - unfold Platform.disconnect. by rewrite tracks_update_ne.
Qed.

Lemma tracks_disconnectAll_false rs p o el :
  tracks p o el = false -> tracks (disconnectAll rs p) o el = false.
Proof.
  revert p. induction rs as [|r rs IH]; intros p H; [done|].
  simpl. apply IH. by apply tracks_disconnect_false.
Qed.

Lemma tracks_disconnectAll rs p r el :
  r ∈ rs -> tracks (disconnectAll rs p) (observer r) el = false.
Proof.
  revert p. induction rs as [|r' rs IH]; intros p Hin; [inversion Hin|].
  apply elem_of_cons in Hin as [->|Hin]; simpl.
  - apply tracks_disconnectAll_false, tracks_disconnect.
  - by apply IH.
Qed.

Lemma tracks_observe_new callback th rm el p :
  tracks (Platform.observe (length p) el
            (p ++ [mkIntersectionObserver callback th rm []]))
         (length p) el = true.
Proof.
  unfold tracks, Platform.observe.
  erewrite update_lookup_eq; [|by apply list_lookup_middle].
  simpl. by apply bool_decide_eq_true, list_elem_of_singleton.
Qed.

Lemma tracks_app_old p io o el :
  o < length p -> tracks (p ++ [io]) o el = tracks p o el.
Proof. intros Hlt. unfold tracks. by rewrite lookup_app_l. Qed.

End PlatformFacts.

Lemma handler_spec callback es o l p :
  handler callback es o (mkWorld l p) =
    (tt, mkWorld l (unobserveAll o es p),
     flat_map (fire callback o (JsMap.keys (observers l))) es).
Proof.
  revert p. unfold handler. induction es as [|e es IH]; intros p; [done|].
  simpl forEach. unfold bind. rewrite handleEntry_spec. simpl.
  destruct (isIntersecting e); simpl; by rewrite IH.
Qed.

Lemma deliver_spec o es w :
  deliver o es w =
    match platform w !! o with
    | Some io =>
        (tt, mkWorld (loader w) (unobserveAll o (reported w o es) (platform w)),
         flat_map (fire (io_callback io) o (JsMap.keys (observers (loader w))))
                  (reported w o es))
    | None => (tt, w, [])
    end.
Proof.
  destruct w as [l p]. unfold deliver, reported. run_monad.
  destruct (p !! o) as [io|]; [|done].
  by rewrite handler_spec.
Qed.

Lemma deliver_loader o es w : loader (world_of (deliver o es w)) = loader w.
Proof. rewrite deliver_spec. by destruct (platform w !! o). Qed.

Lemma unobserveAll_length o es p : length (unobserveAll o es p) = length p.
Proof.
  revert p. induction es as [|e es IH]; intros p; [done|]. simpl.
  rewrite IH. destruct (isIntersecting e); [|done]. apply update_length.
Qed.

Lemma unobserveAll_lookup_ne o o' es p :
  o' <> o -> unobserveAll o es p !! o' = p !! o'.
Proof.
  intros Hne. revert p. induction es as [|e es IH]; intros p; [done|]. simpl.
  rewrite IH. destruct (isIntersecting e); [|done]. by apply update_lookup_ne.
Qed.

Lemma fire_observer callback o keys es :
  Forall (fun e => eventObserver e = Some o)
         (flat_map (fire callback o keys) es).
Proof.
  induction es as [|e es IH]; [constructor|].
  cbn [flat_map]. apply Forall_app. split; [|done].
  unfold fire. destruct (isIntersecting e); repeat constructor.
Qed.

Lemma fire_no_hook callback o keys es :
  count isHook (flat_map (fire callback o keys) es) = 0.
Proof.
  induction es as [|e es IH]; [done|].
  cbn [flat_map]. rewrite count_app, IH.
  unfold fire. by destruct (isIntersecting e).
Qed.

Lemma fire_count callback o keys es :
  count isCallback (flat_map (fire callback o keys) es)
  = length (List.filter isIntersecting es).
Proof.
  induction es as [|e es IH]; [done|].
  cbn [flat_map]. rewrite count_app, IH.
  unfold fire. simpl. by destruct (isIntersecting e).
Qed.

Lemma filter_all {A} (P : A -> Prop) `{forall x, Decision (P x)} (l : list A) :
  (forall x, x ∈ l -> P x) -> filter P l = l.
Proof.
  induction l as [|x l IH]; intros HP; [done|].
  rewrite filter_cons_True; [|apply HP; left].
  f_equal. apply IH. intros y Hy. apply HP. by right.
Qed.

Lemma filter_none {A} (P : A -> Prop) `{forall x, Decision (P x)} (l : list A) :
  (forall x, x ∈ l -> ~ P x) -> filter P l = [].
Proof.
  induction l as [|x l IH]; intros HP; [done|].
  rewrite filter_cons_False; [|apply HP; left].
  apply IH. intros y Hy. apply HP. by right.
Qed.

Lemma withTargets_same io : withTargets io (io_targets io) = io.
Proof. by destruct io. Qed.

Lemma unobserveAll_lookup_eq o es p io :
  p !! o = Some io ->
  unobserveAll o es p !! o =
    Some (withTargets io
            (filter (fun t => t ∉ map target (List.filter isIntersecting es))
                    (io_targets io))).
Proof.
  revert p io. induction es as [|e es IH]; intros p io Hio.
  - simpl. rewrite Hio. f_equal. rewrite <- (withTargets_same io) at 1.
    f_equal. symmetry. apply filter_all. intros t _. inversion 1.
  - simpl. destruct (isIntersecting e) eqn:He.
    + erewrite IH; [|by apply update_lookup_eq]. simpl. f_equal.
      unfold withTargets. simpl. f_equal.
      rewrite list_filter_filter. apply list_filter_iff.
      intros t. rewrite not_elem_of_cons. tauto.
    + by apply IH.
Qed.

Lemma unobserveAll_quiet o es p :
  List.filter isIntersecting es = [] -> unobserveAll o es p = p.
Proof.
  revert p. induction es as [|e es IH]; intros p; [done|]. simpl.
  destruct (isIntersecting e); [done|]. apply IH.
Qed.

Lemma fire_quiet callback o keys es :
  List.filter isIntersecting es = [] ->
  flat_map (fire callback o keys) es = [].
Proof.
  induction es as [|e es IH]; [done|]. simpl. unfold fire.
  destruct (isIntersecting e); [done|]. apply IH.
Qed.

Lemma fire_filter_intersecting callback o keys es :
  flat_map (fire callback o keys) (List.filter isIntersecting es)
  = flat_map (fire callback o keys) es.
Proof.
  induction es as [|e es IH]; [done|]. simpl.
  destruct (isIntersecting e) eqn:He; simpl.
  - by rewrite IH.
  - unfold fire at 2. by rewrite He.
Qed.

(** ** Deliveries to an observer that tracks a single target *)

Lemma firing_reported el (b : list Entry) :
  List.filter isIntersecting (filter (fun e => target e ∈ [el]) b) = firing el b.
Proof.
  unfold firing. induction b as [|e b IH]; [done|].
  rewrite filter_cons. simpl.
  destruct (decide (target e ∈ [el])) as [Hin|Hin].
  - apply list_elem_of_singleton in Hin. simpl.
    rewrite (bool_decide_eq_true_2 _ Hin), andb_true_r.
    destruct (isIntersecting e); by rewrite IH.
  - rewrite bool_decide_eq_false_2, andb_false_r; [done|].
    intros Heq. apply Hin. by apply list_elem_of_singleton.
Qed.

Lemma firing_intersecting el b :
  List.filter isIntersecting (firing el b) = firing el b.
Proof.
  unfold firing. induction b as [|e b IH]; [done|]. simpl.
  destruct (isIntersecting e) eqn:He; simpl; [|done].
  destruct (bool_decide (target e = el)); simpl; [|done].
  by rewrite He, IH.
Qed.

Lemma firing_targets el b : Forall (fun e => target e = el) (firing el b).
Proof.
  unfold firing. induction b as [|e b IH]; [constructor|]. simpl.
  destruct (isIntersecting e); simpl; [|done].
  destruct (bool_decide (target e = el)) eqn:Ht; simpl; [|done].
  constructor; [|done]. by apply bool_decide_eq_true in Ht.
Qed.

Lemma firstFiring_intersecting el batches :
  List.filter isIntersecting (firstFiring el batches) = firstFiring el batches.
Proof.
  induction batches as [|b bs IH]; [done|]. simpl.
  destruct (firing el b) as [|e es] eqn:Hb; [done|].
  rewrite <- Hb. apply firing_intersecting.
Qed.

Lemma deliverAll_untracked o batches w io :
  platform w !! o = Some io -> io_targets io = [] ->
  deliverAll o batches w = (tt, w, []).
Proof.
  intros Hio Hts. unfold deliverAll.
  induction batches as [|b bs IH]; [done|].
  simpl forEach. unfold bind. rewrite deliver_spec, Hio.
  unfold reported. rewrite Hio, Hts.
  replace (filter (fun e => target e ∈ []) b) with (@nil Entry).
  - simpl. destruct w as [l p]. simpl. by rewrite IH.
  - symmetry. apply filter_none. intros e _. inversion 1.
Qed.

Lemma deliverAll_tracking o el batches w io :
  platform w !! o = Some io -> io_targets io = [el] ->
  trace_of (deliverAll o batches w)
  = flat_map (fire (io_callback io) o (JsMap.keys (observers (loader w))))
             (firstFiring el batches).
Proof.
  intros Hio Hts. unfold deliverAll.
  induction batches as [|b bs IH]; [done|].
  simpl forEach. unfold bind. rewrite deliver_spec, Hio.
  unfold reported. rewrite Hio, Hts.
  set (es := filter (fun e => target e ∈ [el]) b).
  pose proof (firing_reported el b) as Hes. fold es in Hes.
  simpl firstFiring. destruct (firing el b) as [|e fs] eqn:Hb.
  - rewrite (unobserveAll_quiet _ _ _ Hes), (fire_quiet _ _ _ _ Hes).
    destruct w as [l p]. simpl in *.
    destruct (forEach (deliver o) bs (mkWorld l p)) as [[[] w2] t2].
    exact IH.
  - set (w1 := mkWorld (loader w) (unobserveAll o es (platform w))).
    assert (Hq : deliverAll o bs w1 = (tt, w1, [])).
    { eapply deliverAll_untracked.
      - simpl. by apply unobserveAll_lookup_eq.
      - simpl. rewrite Hts, Hes. apply filter_none.
        intros t Ht%list_elem_of_singleton. subst t. intros Hn. apply Hn.
        pose proof (firing_targets el b) as Hf. rewrite Hb in Hf.
        pose proof (Forall_inv Hf) as He. simpl in He. simpl.
        rewrite He. left. }
    unfold deliverAll in Hq. rewrite Hq. unfold trace_of. simpl.
    rewrite app_nil_r, <- fire_filter_intersecting, Hes. done.
Qed.

(** ** Registration *)

Lemma observe_spec r1 r2 callback el options w :
  observe r1 r2 callback el options w =
    (generateId r1 r2,
     afterObserve (generateId r1 r2) callback el options w,
     [EvNewObserver (length (platform w)) (threshold (loader w))
                    (rootMargin (loader w));
      EvObserve (length (platform w)) el;
      EvSet (generateId r1 r2)]).
Proof.
  unfold observe, newIntersectionObserver, io_observe, mapSet, afterObserve,
    newRecord. run_monad. repeat f_equal.
  unfold Platform.observe, Platform.update.
  rewrite list_lookup_middle by done. simpl.
  by rewrite insert_app_r_alt, Nat.sub_diag.
Qed.

(** A registration is found under the id its stop function closes over. *)
Lemma observe_binds_id r1 r2 callback el options w :
  let r := observe r1 r2 callback el options w in
  value_of r = generateId r1 r2 /\
  JsMap.get (value_of r) (observers (loader (world_of r)))
    = Some (newRecord w el options) /\
  tracks (platform (world_of r)) (length (platform w)) el = true.
Proof.
  intros r. subst r. rewrite observe_spec.
  unfold value_of, world_of, afterObserve. simpl. split; [done|]. split.
  - apply get_set_eq.
  - unfold tracks. rewrite list_lookup_middle by done. simpl.
    apply bool_decide_eq_true. left.
Qed.

Section JsMapSetFacts.

Implicit Types (m : ObserverMap) (id k : Id) (r v : ObserverRecord).

Lemma keys_set id v m :
  JsMap.keys (JsMap.set id v m)
  = if bool_decide (id ∈ JsMap.keys m) then JsMap.keys m
    else JsMap.keys m ++ [id].
Proof.
  induction m as [|[k v'] m IH]; [done|]. simpl.
  destruct (decide (k = id)) as [->|Hne]; simpl.
  - rewrite bool_decide_eq_true_2; [done|left].
  - rewrite IH. destruct (bool_decide (id ∈ JsMap.keys m)) eqn:Hin.
    + apply bool_decide_eq_true in Hin.
      rewrite bool_decide_eq_true_2; [done|by right].
    + apply bool_decide_eq_false in Hin.
      rewrite bool_decide_eq_false_2; [done|].
      intros [?|?]%elem_of_cons; congruence.
Qed.

Lemma NoDup_keys_set id v m :
  NoDup (JsMap.keys m) -> NoDup (JsMap.keys (JsMap.set id v m)).
Proof.
  intros Hm. rewrite keys_set.
  destruct (bool_decide (id ∈ JsMap.keys m)) eqn:Hin; [done|].
  apply bool_decide_eq_false in Hin.
  apply NoDup_app. split; [done|]. split.
  - intros k Hk ->%list_elem_of_singleton. done.
  - apply NoDup_singleton.
Qed.

Lemma values_set id v r m :
  r ∈ JsMap.values (JsMap.set id v m) -> r = v \/ r ∈ JsMap.values m.
Proof.
  induction m as [|[k v'] m IH]; simpl.
  - intros ->%list_elem_of_singleton. by left.
  - destruct (decide (k = id)); simpl.
    + intros [->|?]%elem_of_cons; [by left|]. right. by right.
    + intros [->|H]%elem_of_cons; [right; left|].
      destruct (IH H) as [->|?]; [by left|]. right. by right.
Qed.

Lemma NoDup_observers_set id v m :
  observer v ∉ map observer (JsMap.values m) ->
  NoDup (map observer (JsMap.values m)) ->
  NoDup (map observer (JsMap.values (JsMap.set id v m))).
Proof.
  induction m as [|[k v'] m IH]; simpl.
  - intros _ _. apply NoDup_singleton.
  - intros Hv [Hv' Hm]%NoDup_cons.
    apply not_elem_of_cons in Hv as [Hne Hv].
    destruct (decide (k = id)); simpl; apply NoDup_cons.
    + done.
    + split; [|by apply IH].
      intros (r & Hr & Hin)%list_elem_of_fmap.
      apply values_set in Hin as [->|Hin]; [congruence|].
      apply Hv'. apply list_elem_of_fmap. eauto.
Qed.

Lemma keys_delete_sublist id m :
  JsMap.keys (JsMap.delete id m) `sublist_of` JsMap.keys m.
Proof. apply (fmap_sublist fst), sublist_filter. Qed.

Lemma observers_delete_sublist id m :
  map observer (JsMap.values (JsMap.delete id m))
  `sublist_of` map observer (JsMap.values m).
Proof.
  apply (fmap_sublist observer), (fmap_sublist snd), sublist_filter.
Qed.

Lemma distinct_observers_elem m k1 k2 r1 r2 :
  NoDup (map observer (JsMap.values m)) ->
  k1 <> k2 -> (k1, r1) ∈ m -> (k2, r2) ∈ m ->
  observer r1 <> observer r2.
Proof.
  induction m as [|[k v] m IH]; simpl; [by inversion 3|].
  intros [Hv Hm]%NoDup_cons Hne [E1|H1]%elem_of_cons [E2|H2]%elem_of_cons.
  - congruence.
  - injection E1 as -> ->. intros Heq. apply Hv.
    apply list_elem_of_fmap. exists r2. split; [done|].
    apply list_elem_of_fmap. by exists (k2, r2).
  - injection E2 as -> ->. intros Heq. apply Hv.
    apply list_elem_of_fmap. exists r1. split; [done|].
    apply list_elem_of_fmap. by exists (k1, r1).
  - by apply IH.
Qed.

Lemma distinct_observers m k1 k2 r1 r2 :
  NoDup (map observer (JsMap.values m)) ->
  k1 <> k2 -> JsMap.get k1 m = Some r1 -> JsMap.get k2 m = Some r2 ->
  observer r1 <> observer r2.
Proof.
  intros Hm Hne H1%get_Some_elem H2%get_Some_elem.
  by apply (distinct_observers_elem m k1 k2).
Qed.

End JsMapSetFacts.

(** ** Well-formedness of reachable worlds *)

Lemma wf_newWorld options : wf (newWorld options).
Proof. repeat split; simpl; constructor. Qed.

Lemma wf_fresh w r :
  wf w -> r ∈ JsMap.values (observers (loader w)) ->
  observer r <> length (platform w).
Proof.
  intros (_ & _ & Hlt) Hin. rewrite Forall_forall in Hlt.
  specialize (Hlt r Hin). lia.
Qed.

Lemma wf_observe id callback el options w :
  wf w -> wf (afterObserve id callback el options w).
Proof.
  intros Hwf. pose proof Hwf as (Hk & Ho & Hlt).
  unfold wf, afterObserve. simpl. split; [|split].
  - by apply NoDup_keys_set.
  - apply NoDup_observers_set; [|done]. simpl.
    intros (r & Hr & Hin)%list_elem_of_fmap.
    by apply (wf_fresh w r).
  - apply Forall_forall. intros r Hin. rewrite length_app. simpl.
    apply values_set in Hin as [->|Hin]; simpl; [lia|].
    rewrite Forall_forall in Hlt. specialize (Hlt r Hin). lia.
Qed.

Lemma wf_afterStop id r w : wf w -> wf (afterStop id r w).
Proof.
  intros (Hk & Ho & Hlt). unfold wf, afterStop. simpl. split; [|split].
  - apply (sublist_NoDup _ _ Hk), keys_delete_sublist.
  - apply (sublist_NoDup _ _ Ho), observers_delete_sublist.
  - unfold Platform.unobserve. rewrite update_length.
    apply Forall_forall. intros r' Hin%values_delete_subseteq.
    rewrite Forall_forall in Hlt. by apply Hlt.
Qed.

Lemma wf_unobserve id w : wf w -> wf (world_of (unobserve id w)).
Proof.
  intros Hwf. destruct (JsMap.get id (observers (loader w))) as [r|] eqn:Hg.
  - rewrite (unobserve_present _ _ _ Hg). by apply wf_afterStop.
  - by rewrite (unobserve_absent _ _ Hg).
Qed.

Lemma wf_disconnect w : wf (world_of (disconnect w)).
Proof. rewrite disconnect_spec. repeat split; simpl; constructor. Qed.

Lemma wf_deliver o es w : wf w -> wf (world_of (deliver o es w)).
Proof.
  intros (Hk & Ho & Hlt). rewrite deliver_spec.
  destruct (platform w !! o) as [io|]; [|done].
  unfold wf, world_of. simpl. by rewrite unobserveAll_length.
Qed.

Lemma wf_step op w : wf w -> wf (world_of (step op w)).
Proof.
  intros Hwf. destruct op as [r1 r2 callback el options|id| |o es]; simpl.
  - unfold bind. rewrite observe_spec. simpl. by apply wf_observe.
  - by apply wf_unobserve.
  - apply wf_disconnect.
  - by apply wf_deliver.
Qed.

Lemma wf_run ops w : wf w -> wf (world_of (run ops w)).
Proof.
  revert w. unfold run. induction ops as [|op ops IH]; intros w Hwf; [done|].
  simpl forEach. unfold bind.
  pose proof (wf_step op w Hwf) as H1.
  destruct (step op w) as [[[] w1] t1]. specialize (IH w1 H1).
  by destruct (forEach step ops w1) as [[[] w2] t2].
Qed.

Lemma reachable_wf w : reachable w -> wf w.
Proof. intros (options & ops & ->). apply wf_run, wf_newWorld. Qed.

Lemma step_config op w : sameConfig (loader (world_of (step op w))) (loader w).
Proof.
  destruct op as [r1 r2 callback el options|id| |o es]; unfold step.
  - unfold bind. by rewrite observe_spec.
  - unfold stop. destruct (JsMap.get id (observers (loader w))) as [r|] eqn:Hg.
    + by rewrite (unobserve_present _ _ _ Hg).
    + by rewrite (unobserve_absent _ _ Hg).
  - by rewrite disconnect_spec.
  - by rewrite deliver_loader.
Qed.

Lemma run_config ops w : sameConfig (loader (world_of (run ops w))) (loader w).
Proof.
  revert w. unfold run. induction ops as [|op ops IH]; intros w; [done|].
  simpl forEach. unfold bind.
  pose proof (step_config op w) as [H1 H2].
  destruct (step op w) as [[[] w1] t1]. specialize (IH w1) as [H3 H4].
  destruct (forEach step ops w1) as [[[] w2] t2].
  unfold world_of in *. simpl in *. split; congruence.
Qed.

(** ** Which operations keep every record active *)

Lemma allActiveb_spec w : allActiveb w = true <-> allActive w.
Proof.
  unfold allActiveb, allActive, JsMap.values. rewrite forallb_forall. split.
  - intros H id r Hin. apply H, list_elem_of_In, list_elem_of_fmap.
    by exists (id, r).
  - intros H r ([id r'] & -> & Hin)%list_elem_of_In%list_elem_of_fmap.
    by apply (H id).
Qed.

Lemma elem_value id r (m : ObserverMap) : (id, r) ∈ m -> r ∈ JsMap.values m.
Proof. intros H. apply list_elem_of_fmap. by exists (id, r). Qed.

Lemma allActive_observe id callback el options w :
  wf w -> allActive w -> allActive (afterObserve id callback el options w).
Proof.
  intros Hwf Hact id' r' Hin%elem_value. unfold recordActive. simpl in *.
  apply values_set in Hin as [->|Hin].
  - unfold tracks, newRecord. simpl. rewrite list_lookup_middle by done.
    simpl. apply bool_decide_eq_true. left.
  - pose proof Hwf as (_ & _ & Hlt). rewrite Forall_forall in Hlt.
    rewrite tracks_app_old by by apply Hlt.
    apply list_elem_of_fmap in Hin as ([k v] & -> & Hin). by apply (Hact k).
Qed.

Lemma allActive_afterStop id r w :
  wf w -> JsMap.get id (observers (loader w)) = Some r ->
  allActive w -> allActive (afterStop id r w).
Proof.
  intros (_ & Ho & _) Hg%get_Some_elem Hact id' r' Hin.
  unfold recordActive. simpl in *.
  apply list_elem_of_filter in Hin as [Hne Hin]. simpl in Hne.
  unfold Platform.unobserve. rewrite tracks_update_ne.
  - by apply (Hact id').
  - by apply (distinct_observers_elem (observers (loader w)) id' id).
Qed.

Lemma allActive_unobserve id w :
  wf w -> allActive w -> allActive (world_of (unobserve id w)).
Proof.
  intros Hwf Hact.
  destruct (JsMap.get id (observers (loader w))) as [r|] eqn:Hg.
  - rewrite (unobserve_present _ _ _ Hg). by apply allActive_afterStop.
  - by rewrite (unobserve_absent _ _ Hg).
Qed.

Lemma allActive_disconnect w : allActive (world_of (disconnect w)).
Proof. rewrite disconnect_spec. intros id r Hin. inversion Hin. Qed.

Lemma allActive_registration r1 r2 callback el options w :
  wf w -> allActive w ->
  allActive (world_of (observe r1 r2 callback el options w)).
Proof. intros. rewrite observe_spec. by apply allActive_observe. Qed.

(** * The claims *)

(** ** Construction *)

Lemma constructor_no_argument :
  constructor None = mkLazyLoader (Some (1 # 10)%Q) (Some "0px"%string) [].
Proof. reflexivity. Qed.

Lemma constructor_passes_through th rm :
  constructor (Some (mkLoaderOptions th rm)) = mkLazyLoader th rm [].
Proof. reflexivity. Qed.

Lemma constructor_empty options : observers (constructor options) = [].
Proof. reflexivity. Qed.

(** C3.  The claim is that each field of the constructor's options defaults
    on its own: threshold to 0.1 and rootMargin to "0px".  The default of the
    code is the default of the whole parameter, so an options object that
    gives only one field leaves the other [undefined]: with
    [{rootMargin: '100px'}] the threshold is [undefined], not 0.1, and with
    [{threshold: 0.5}] the rootMargin is [undefined], not "0px".  The map
    starts empty in every case. *)
Theorem constructor_partial_options_undefined :
  threshold (constructor (Some (mkLoaderOptions None (Some "100px"%string))))
    = None /\
  rootMargin (constructor (Some (mkLoaderOptions (Some (1 # 2)%Q) None)))
    = None /\
  threshold (constructor None) = Some (1 # 10)%Q /\
  rootMargin (constructor None) = Some "0px"%string.
Proof. repeat split. Qed.

(** ** Reports that do not intersect *)

Lemma deliver_quiet o es w :
  Forall (fun e => isIntersecting e = false) es ->
  deliver o es w = (tt, w, []).
Proof.
  intros Hes. rewrite deliver_spec.
  destruct (platform w !! o) as [io|] eqn:Hio; [|done].
  assert (Hq : List.filter isIntersecting (reported w o es) = []).
  { unfold reported. rewrite Hio.
    induction Hes as [|e es He _ IH]; [done|].
    rewrite filter_cons. destruct (decide (target e ∈ io_targets io)); [|done].
    simpl. by rewrite He. }
  rewrite (unobserveAll_quiet _ _ _ Hq), (fire_quiet _ _ _ _ Hq).
  by destruct w.
Qed.

(** C10.  An entry whose [isIntersecting] is false makes the handler do
    nothing: no callback, no hook, no instruction to the watcher, and the
    world (the map included) is the one before; the same holds for a whole
    delivery of such entries. *)
Theorem not_intersecting_is_ignored callback o e es w :
  isIntersecting e = false ->
  Forall (fun e' => isIntersecting e' = false) es ->
  handleEntry callback o e w = (tt, w, []) /\
  deliver o es w = (tt, w, []).
Proof.
  intros He Hes. split.
  - unfold handleEntry. by rewrite He.
  - by apply deliver_quiet.
Qed.

Lemma not_intersecting_is_ignored_witness :
  handleEntry (UserFn 1) 0 (mkEntry 7 false) world1 = (tt, world1, []) /\
  deliver 0 [mkEntry 7 false; mkEntry 7 false] world1 = (tt, world1, []).
Proof.
  apply (not_intersecting_is_ignored (UserFn 1) 0 (mkEntry 7 false)
           [mkEntry 7 false; mkEntry 7 false] world1).
  - reflexivity.
  - repeat constructor.
Defined.

(** ** The stop function *)

(** C4.  When the id is in the map, the stop function calls
    [beforeUnobserve(element, observer)] with the id still among the keys,
    then tells the observer to unobserve the element, then deletes the id,
    then calls [afterUnobserve(element, observer)] with the id no longer
    among the keys; nothing else happens. *)
Theorem stop_runs_hooks_in_order id r w :
  JsMap.get id (observers (loader w)) = Some r ->
  let keysBefore := JsMap.keys (observers (loader w)) in
  let keysAfter := JsMap.keys (observers (loader (world_of (stop id w)))) in
  trace_of (stop id w) =
    [EvBefore (beforeUnobserve r) (element r) (observer r) keysBefore;
     EvUnobserve (observer r) (element r);
     EvDelete id;
     EvAfter (afterUnobserve r) (element r) (observer r) keysAfter] /\
  id ∈ keysBefore /\
  (id ∉ keysAfter) /\
  JsMap.get id (observers (loader (world_of (stop id w)))) = None /\
  tracks (platform (world_of (stop id w))) (observer r) (element r) = false.
Proof.
  intros Hg. unfold stop. rewrite (unobserve_present _ _ _ Hg).
  unfold world_of, trace_of. simpl. repeat split.
  - by eapply get_Some_key.
  - apply get_None_key, get_delete_eq.
  - apply get_delete_eq.
  - apply tracks_unobserve.
Qed.

Lemma stop_runs_hooks_in_order_witness :
  trace_of (stop id1 world2) =
    [EvBefore (UserFn 2) 7 0 [id1; id2];
     EvUnobserve 0 7;
     EvDelete id1;
     EvAfter (UserFn 3) 7 0 [id2]].
Proof.
  apply (stop_runs_hooks_in_order id1 (mkObserverRecord 0 7 (UserFn 2) (UserFn 3))
           world2).
  reflexivity.
Defined.

Lemma stop_twice id w : (stop id ;; stop id) w = stop id w.
Proof.
  unfold stop, bind.
  destruct (JsMap.get id (observers (loader w))) as [r|] eqn:Hg.
  - rewrite (unobserve_present _ _ _ Hg).
    rewrite unobserve_absent by apply get_delete_eq.
    by rewrite app_nil_r.
  - by rewrite !(unobserve_absent _ _ Hg).
Qed.

(** C5.  With the id absent from the map the stop function returns at once:
    the world is unchanged and nothing is called.  Calling it twice is the
    same as calling it once, and when the id was present the two calls
    together run [beforeUnobserve] once and [afterUnobserve] once. *)
Theorem stop_is_idempotent id w :
  (JsMap.get id (observers (loader w)) = None -> stop id w = (tt, w, [])) /\
  (stop id ;; stop id) w = stop id w /\
  (is_Some (JsMap.get id (observers (loader w))) ->
   count isBefore (trace_of ((stop id ;; stop id) w)) = 1 /\
   count isAfter (trace_of ((stop id ;; stop id) w)) = 1).
Proof.
  split; [apply unobserve_absent|]. split; [apply stop_twice|].
  intros [r Hg]. rewrite stop_twice. unfold stop.
  by rewrite (unobserve_present _ _ _ Hg).
Qed.

Lemma stop_is_idempotent_witness :
  stop id1 (world_of (stop id1 world2)) = (tt, world_of (stop id1 world2), []) /\
  count isBefore (trace_of ((stop id1 ;; stop id1) world2)) = 1 /\
  count isAfter (trace_of ((stop id1 ;; stop id1) world2)) = 1.
Proof.
  split.
  - destruct (stop_is_idempotent id1 (world_of (stop id1 world2)))
      as (Habsent & _ & _).
    apply Habsent. reflexivity.
  - destruct (stop_is_idempotent id1 world2) as (_ & _ & Hpresent).
    apply Hpresent. eexists. reflexivity.
Defined.

(** ** [disconnect] *)

Lemma values_nil (m : ObserverMap) : JsMap.values m = [] -> m = [].
Proof. by destruct m. Qed.

(** C6.  [disconnect] on a map of N records calls, for each record in turn,
    its [beforeUnobserve] and its [afterUnobserve] with the record's element
    and observer, and disconnects the record's observer in between: N calls
    of each hook and no visibility callback.  Afterwards no record's observer
    tracks anything and the map is empty; a loader reached from
    [constructor options] is again equal to [constructor options].  On an
    empty map no hook is called and the world is unchanged. *)
Theorem disconnect_tears_down_every_record w :
  let rs := JsMap.values (observers (loader w)) in
  let t := trace_of (disconnect w) in
  let w' := world_of (disconnect w) in
  t = flat_map (teardown (JsMap.keys (observers (loader w)))) rs ++ [EvClear] /\
  count isBefore t = length rs /\
  count isAfter t = length rs /\
  count isCallback t = 0 /\
  (forall r el, r ∈ rs -> tracks (platform w') (observer r) el = false) /\
  observers (loader w') = [] /\
  (forall options ops,
     w = world_of (run ops (newWorld options)) ->
     loader w' = constructor options) /\
  (rs = [] -> count isHook t = 0 /\ w' = w).
Proof.
  intros rs t w'. subst t w'. rewrite disconnect_spec.
  unfold trace_of, world_of. simpl. fold rs.
  destruct (count_teardown (JsMap.keys (observers (loader w))) rs)
    as (Hb & Ha & Hc).
  split; [done|]. rewrite !count_app, Hb, Ha, Hc.
  change (count isBefore [EvClear]) with 0.
  change (count isAfter [EvClear]) with 0.
  change (count isCallback [EvClear]) with 0.
  change (count isHook [EvClear]) with 0.
  rewrite !Nat.add_0_r.
  split; [done|]. split; [done|]. split; [done|].
  split; [|split; [done|split]].
  - intros r el Hin. by apply tracks_disconnectAll.
  - intros options ops ->.
    destruct (run_config ops (newWorld options)) as [Hth Hrm].
    unfold world_of in Hth, Hrm. rewrite Hth, Hrm. by destruct options as [[th rm]|].
  - intros Hrs. rewrite Hrs. split; [done|].
    apply values_nil in Hrs. destruct w as [[th rm obs] p].
    simpl in *. by subst obs.
Qed.

Lemma disconnect_tears_down_every_record_witness :
  count isBefore (trace_of (disconnect world2)) = 2 /\
  count isAfter (trace_of (disconnect world2)) = 2 /\
  loader (world_of (disconnect world2)) = constructor None /\
  world_of (disconnect (newWorld None)) = newWorld None.
Proof.
  destruct (disconnect_tears_down_every_record world2)
    as (_ & Hb & Ha & _ & _ & _ & Hfresh & _).
  destruct (disconnect_tears_down_every_record (newWorld None))
    as (_ & _ & _ & _ & _ & _ & _ & Hempty).
  split; [exact Hb|]. split; [exact Ha|]. split.
  - apply (Hfresh None
             [OpObserve "0.abcdefghijklmnopq" "0.xyz" (UserFn 1) 7
                        (Some sampleOptions);
              OpObserve "0.k3" "0.9f" (UserFn 4) 8 None]).
    reflexivity.
  - apply Hempty. reflexivity.
Defined.

Lemma teardown_events keys rs e :
  e ∈ flat_map (teardown keys) rs ->
  e <> EvClear /\ (isHook e = true -> seenKeys e = Some keys).
Proof.
  induction rs as [|r rs IH]; [inversion 1|].
  cbn [flat_map]. rewrite elem_of_app. intros [Hin|Hin]; [|by apply IH].
  unfold teardown in Hin.
  repeat (apply elem_of_cons in Hin as [->|Hin]); try done.
  inversion Hin.
Qed.

Lemma teardown_elem keys rs r :
  r ∈ rs ->
  EvBefore (beforeUnobserve r) (element r) (observer r) keys
    ∈ flat_map (teardown keys) rs /\
  EvAfter (afterUnobserve r) (element r) (observer r) keys
    ∈ flat_map (teardown keys) rs.
Proof.
  induction rs as [|r' rs IH]; [inversion 1|].
  cbn [flat_map]. rewrite !elem_of_app.
  intros [->|Hin]%elem_of_cons.
  - split; left; unfold teardown; [left|right; right; left].
  - destruct (IH Hin). split; by right.
Qed.

Lemma bind_run {A} (m : M unit) (k : M A) w w1 t1 :
  m w = (tt, w1, t1) ->
  (m ;; k) w = (let '(b, w2, t2) := k w1 in (b, w2, t1 ++ t2)).
Proof. intros Hm. unfold bind. by rewrite Hm. Qed.

(** C9.  [disconnect] is the loop over the records followed by the clearing
    of the map.  Every hook call of the loop, the [afterUnobserve] calls
    included, sees the full set of keys the map had when [disconnect]
    started, so each record's id is still present when its hooks run, and
    when the loop is over the map still holds every record.  The map is
    cleared once, as the last step, after all hooks: only then is it
    empty. *)
Theorem disconnect_clears_after_all_hooks w :
  let obs := observers (loader w) in
  let loop :=
    forEach (fun r => callBefore r ;; io_disconnect (observer r) ;; callAfter r)
            (JsMap.values obs) in
  let t := trace_of (disconnect w) in
  disconnect w = (loop ;; mapClear) w /\
  observers (loader (world_of (loop w))) = obs /\
  observers (loader (world_of (disconnect w))) = [] /\
  t = trace_of (loop w) ++ [EvClear] /\
  (forall e, e ∈ trace_of (loop w) ->
     e <> EvClear /\
     (isHook e = true -> seenKeys e = Some (JsMap.keys obs))) /\
  (forall id r, (id, r) ∈ obs ->
     id ∈ JsMap.keys obs /\
     EvBefore (beforeUnobserve r) (element r) (observer r) (JsMap.keys obs)
       ∈ trace_of (loop w) /\
     EvAfter (afterUnobserve r) (element r) (observer r) (JsMap.keys obs)
       ∈ trace_of (loop w)).
Proof.
  intros obs loop t. subst t loop.
  assert (Hloop :
    forEach (fun r => callBefore r ;; io_disconnect (observer r) ;; callAfter r)
            (JsMap.values obs) w
    = (tt, mkWorld (loader w) (disconnectAll (JsMap.values obs) (platform w)),
       flat_map (teardown (JsMap.keys obs)) (JsMap.values obs))).
  { destruct w as [l p]. apply forEach_teardown. }
  split.
  { rewrite (bind_run _ _ _ _ _ Hloop), disconnect_spec.
    unfold mapClear. run_monad. done. }
  rewrite Hloop, disconnect_spec. unfold trace_of, world_of. simpl. fold obs.
  split; [done|]. split; [done|]. split; [done|]. split.
  - apply teardown_events.
  - intros id r Hin. split.
    + apply list_elem_of_fmap. by exists (id, r).
    + apply teardown_elem. by apply (elem_value id).
Qed.

Lemma disconnect_clears_after_all_hooks_witness :
  id1 ∈ JsMap.keys (observers (loader world2)) /\
  EvAfter (UserFn 3) 7 0 [id1; id2]
    ∈ trace_of (forEach (fun r => callBefore r ;; io_disconnect (observer r) ;;
                                  callAfter r)
                        (JsMap.values (observers (loader world2))) world2) /\
  observers (loader (world_of (disconnect world2))) = [].
Proof.
  destruct (disconnect_clears_after_all_hooks world2)
    as (_ & _ & Hcleared & _ & _ & Hrec).
  destruct (Hrec id1 (mkObserverRecord 0 7 (UserFn 2) (UserFn 3)))
    as (Hkey & _ & Hafter); [left|].
  split; [exact Hkey|]. split; [exact Hafter|exact Hcleared].
Defined.

(** ** The visibility path *)

(** The handler never touches the map, whatever it is given. *)
Lemma deliver_keeps_records o es w :
  observers (loader (world_of (deliver o es w))) = observers (loader w).
Proof. by rewrite deliver_loader. Qed.

(** C1.  The claim is that an intersecting report makes the loader call the
    callback once, tell the watcher to stop, and remove the record, so that
    a later [disconnect] skips the id and a later call of the stop function
    does nothing.  The handler does the first two and leaves the map alone:
    after the report the id is still a key, the stop function still runs
    both hooks and unobserves again, and [disconnect] still tears the record
    down. *)
Theorem fired_record_stays_in_map :
  trace_of (deliver 0 [intersecting7] world1) =
    [EvCallback 0 (UserFn 1) intersecting7 [id1]; EvUnobserve 0 7] /\
  JsMap.has id1 (observers (loader worldFired)) = true /\
  trace_of (stop id1 worldFired) =
    [EvBefore (UserFn 2) 7 0 [id1]; EvUnobserve 0 7; EvDelete id1;
     EvAfter (UserFn 3) 7 0 []] /\
  trace_of (disconnect worldFired) =
    [EvBefore (UserFn 2) 7 0 [id1]; EvDisconnect 0;
     EvAfter (UserFn 3) 7 0 [id1]; EvClear].
Proof. repeat split. Qed.

(** C2.  The claim is that in every reachable world each id of the map has
    a watcher still tracking the record's target.  [observe], the stop
    function and [disconnect] keep this, but the handler unobserves the
    target and keeps the record: the world reached by one [observe] and one
    intersecting report has a record whose watcher tracks nothing. *)
Theorem fired_record_is_not_active :
  reachable worldFired /\
  allActive world1 /\
  JsMap.get id1 (observers (loader worldFired))
    = Some (mkObserverRecord 0 7 (UserFn 2) (UserFn 3)) /\
  tracks (platform worldFired) 0 7 = false /\
  ~ allActive worldFired.
Proof.
  split; [|split; [|split; [|split]]].
  - exists None,
      [OpObserve "0.abcdefghijklmnopq" "0.xyz" (UserFn 1) 7 (Some sampleOptions);
       OpDeliver 0 [intersecting7]].
    reflexivity.
  - by apply allActiveb_spec.
  - reflexivity.
  - reflexivity.
  - intros H%allActiveb_spec. discriminate H.
Qed.

(** The operations other than a delivery keep every record active. *)
Lemma allActive_step op w :
  (forall o es, op <> OpDeliver o es) ->
  wf w -> allActive w -> allActive (world_of (step op w)).
Proof.
  intros Hop Hwf Hact.
  destruct op as [r1 r2 callback el options|id| |o es]; unfold step.
  - unfold bind. rewrite observe_spec. by apply allActive_observe.
  - by apply allActive_unobserve.
  - apply allActive_disconnect.
  - by destruct (Hop o es).
Qed.

Lemma firstFiring_at_most_once el batches :
  Forall (fun b => length (firing el b) <= 1) batches ->
  length (firstFiring el batches) <= 1 /\
  (Exists (fun b => firing el b <> []) batches ->
   length (firstFiring el batches) = 1).
Proof.
  induction 1 as [|b bs Hb _ [IH1 IH2]]; simpl.
  - split; [lia|]. inversion 1.
  - destruct (firing el b) as [|e es] eqn:Hf.
    + split; [done|]. intros [?|?]%Exists_cons; [done|auto].
    + simpl in Hb. split; [done|]. intros _. simpl. lia.
Qed.

(** C7, as the code has it.  After [observe], the deliveries to the new
    observer call the callback once for every entry that reports the element
    intersecting in the first batch holding such an entry, and never again:
    later batches find the element no longer tracked.  So the callback runs
    at most once, and exactly once if some batch reports the element
    intersecting, whenever no single batch reports it intersecting twice. *)
Theorem callback_once_per_first_firing w r1 r2 callback el options batches :
  let o := length (platform w) in
  let w1 := world_of (observe r1 r2 callback el options w) in
  let t := trace_of (deliverAll o batches w1) in
  t = flat_map (fire callback o (JsMap.keys (observers (loader w1))))
               (firstFiring el batches) /\
  count isCallback t = length (firstFiring el batches) /\
  (Forall (fun b => length (firing el b) <= 1) batches ->
   count isCallback t <= 1 /\
   (Exists (fun b => firing el b <> []) batches -> count isCallback t = 1)).
Proof.
  intros o w1 t.
  assert (Ht : t = flat_map (fire callback o (JsMap.keys (observers (loader w1))))
                            (firstFiring el batches)).
  { subst t w1. rewrite observe_spec.
    apply (deliverAll_tracking o el batches _
             (mkIntersectionObserver callback (threshold (loader w))
                                     (rootMargin (loader w)) [el])).
    - unfold world_of, afterObserve. simpl. by apply list_lookup_middle.
    - done. }
  split; [done|].
  assert (Hc : count isCallback t = length (firstFiring el batches)).
  { by rewrite Ht, fire_count, firstFiring_intersecting. }
  split; [done|]. rewrite Hc. apply firstFiring_at_most_once.
Qed.

Lemma callback_once_per_first_firing_witness :
  count isCallback
    (trace_of (deliverAll 0 [[mkEntry 7 false]; [intersecting7]; [intersecting7]]
                          world1)) = 1.
Proof.
  destruct (callback_once_per_first_firing
              (newWorld None) "0.abcdefghijklmnopq" "0.xyz" (UserFn 1) 7
              (Some sampleOptions)
              [[mkEntry 7 false]; [intersecting7]; [intersecting7]])
    as (_ & _ & Honce).
  apply Honce.
  - repeat constructor.
  - right. left. discriminate.
Defined.

(** C7, as stated: the callback of one registration is called at most once
    whatever the platform delivers.  A single batch that reports the element
    intersecting twice makes the handler call it twice. *)
Lemma callback_twice_in_one_batch :
  ~ (forall w r1 r2 callback el options batches,
       count isCallback
         (trace_of (deliverAll (length (platform w)) batches
                      (world_of (observe r1 r2 callback el options w)))) <= 1).
Proof.
  intros H.
  specialize (H (newWorld None) "0.abcdefghijklmnopq"%string "0.xyz"%string
                (UserFn 1) 7 (Some sampleOptions)
                [[intersecting7; intersecting7]]).
  vm_compute in H. lia.
Qed.

(** ** Independence of registrations *)

(** C8.  Two records under distinct ids of a well-formed map own distinct
    observers, and every reachable world is well-formed.  Stopping one, or a delivery to the observer of one, leaves
    the other id bound to the same record, leaves the other observer as it
    was, and runs no callback, hook or platform instruction of the other
    observer. *)
Theorem registrations_are_independent w idA idB rA rB :
  wf w -> idA <> idB ->
  JsMap.get idA (observers (loader w)) = Some rA ->
  JsMap.get idB (observers (loader w)) = Some rB ->
  (JsMap.get idB (observers (loader (world_of (stop idA w)))) = Some rB /\
   platform (world_of (stop idA w)) !! observer rB = platform w !! observer rB /\
   Forall (fun e => ~ concerns (observer rB) e) (trace_of (stop idA w))) /\
  (forall es,
     JsMap.get idB (observers (loader (world_of (deliver (observer rA) es w))))
       = Some rB /\
     platform (world_of (deliver (observer rA) es w)) !! observer rB
       = platform w !! observer rB /\
     Forall (fun e => ~ concerns (observer rB) e)
            (trace_of (deliver (observer rA) es w))).
Proof.
  intros (_ & Ho & _) Hne HA HB.
  assert (Hobs : observer rB <> observer rA).
  { by apply (distinct_observers (observers (loader w)) idB idA). }
  split.
  - unfold stop. rewrite (unobserve_present _ _ _ HA).
    unfold world_of, trace_of, concerns. simpl. split; [|split].
    + by rewrite get_delete_ne.
    + unfold Platform.unobserve. by rewrite update_lookup_ne.
    + repeat constructor; simpl; congruence.
  - intros es. rewrite deliver_spec.
    destruct (platform w !! observer rA) as [io|] eqn:Hio.
    + unfold world_of, trace_of. simpl. split; [done|]. split.
      * by rewrite unobserveAll_lookup_ne.
      * eapply Forall_impl; [apply fire_observer|].
        unfold concerns. intros e He. simpl in He. congruence.
    + unfold world_of, trace_of. simpl. by repeat split.
Qed.

Lemma registrations_are_independent_witness :
  JsMap.get id2 (observers (loader (world_of (stop id1 world2))))
    = Some (mkObserverRecord 1 8 Noop Noop) /\
  platform (world_of (stop id1 world2)) !! 1 = platform world2 !! 1 /\
  Forall (fun e => ~ concerns 1 e) (trace_of (stop id1 world2)).
Proof.
  destruct (registrations_are_independent world2 id1 id2
              (mkObserverRecord 0 7 (UserFn 2) (UserFn 3))
              (mkObserverRecord 1 8 Noop Noop)) as [Hstop _].
  - apply reachable_wf. exists None,
      [OpObserve "0.abcdefghijklmnopq" "0.xyz" (UserFn 1) 7 (Some sampleOptions);
       OpObserve "0.k3" "0.9f" (UserFn 4) 8 None].
    reflexivity.
  - discriminate.
  - reflexivity.
  - reflexivity.
  - exact Hstop.
Defined.

(** * Further properties of the code *)

(** ** Identifiers *)

Lemma string_length_append (s1 s2 : string) :
  String.length (s1 ++ s2)%string = String.length s1 + String.length s2.
Proof. induction s1 as [|c s1 IH]; simpl; [done|]. by rewrite IH. Qed.

Lemma substring_length (n m : nat) (s : string) :
  String.length (String.substring n m s) = m `min` (String.length s - n).
Proof.
  revert n m. induction s as [|c s IH]; intros [|n] [|m]; simpl; try lia.
  - specialize (IH 0 m). rewrite Nat.sub_0_r in IH. lia.
  - apply (IH n 0).
  - apply (IH n (S m)).
Qed.

(** [#generateId] keeps, of each of the two renderings, what follows the
    first two characters, thirteen characters at most: an id has at most 26
    characters, and renderings of two characters or fewer (such as ["0"],
    the rendering of a draw of zero) contribute nothing, so that two such
    draws give the empty id. *)
Theorem generateId_length r1 r2 :
  String.length (generateId r1 r2)
    = 13 `min` (String.length r1 - 2) + 13 `min` (String.length r2 - 2) /\
  String.length (generateId r1 r2) <= 26 /\
  (String.length r1 <= 2 -> String.length r2 <= 2 ->
   generateId r1 r2 = ""%string).
Proof.
  unfold generateId. rewrite string_length_append, !substring_length.
  split; [done|]. split; [lia|]. intros H1 H2.
  assert (Hempty : forall s, String.length s = 0 -> s = ""%string)
    by (by intros [|c s]).
  apply Hempty. rewrite string_length_append, !substring_length. lia.
Qed.

Lemma generateId_length_witness : generateId "0" "0" = ""%string.
Proof.
  destruct (generateId_length "0" "0") as (_ & _ & Hshort).
  apply Hshort; simpl; lia.
Defined.

(** ** Registration *)

(** [observe] returns the generated id, binds it to a record made of the
    new observer, the element and the two hooks, each hook replaced by the
    no-op on its own when the caller left it out; the new observer is built
    with the loader's threshold and rootMargin and tracks exactly the
    element.  Registering calls neither the callback nor a hook. *)
Theorem observe_registers r1 r2 callback el options w :
  let res := observe r1 r2 callback el options w in
  let o := length (platform w) in
  value_of res = generateId r1 r2 /\
  JsMap.get (value_of res) (observers (loader (world_of res)))
    = Some (mkObserverRecord o el
              (default Noop (supplied options opt_beforeUnobserve))
              (default Noop (supplied options opt_afterUnobserve))) /\
  platform (world_of res) !! o
    = Some (mkIntersectionObserver callback (threshold (loader w))
                                   (rootMargin (loader w)) [el]) /\
  length (platform (world_of res)) = S (length (platform w)) /\
  count isCallback (trace_of res) = 0 /\
  count isHook (trace_of res) = 0.
Proof.
  intros res o. subst res o. rewrite observe_spec.
  unfold value_of, world_of, trace_of, afterObserve. simpl.
  split; [done|]. split; [|split; [|split; [|done]]].
  - rewrite get_set_eq. by destruct options.
  - by apply list_lookup_middle.
  - rewrite length_app. simpl. lia.
Qed.

(** [observe] leaves every other id bound as it was and every observer that
    existed before as it was. *)
Theorem observe_frame r1 r2 callback el options w k o :
  k <> generateId r1 r2 ->
  o < length (platform w) ->
  let w1 := world_of (observe r1 r2 callback el options w) in
  JsMap.get k (observers (loader w1)) = JsMap.get k (observers (loader w)) /\
  platform w1 !! o = platform w !! o /\
  sameConfig (loader w1) (loader w).
Proof.
  intros Hk Ho w1. subst w1. rewrite observe_spec.
  unfold world_of, afterObserve. simpl. split; [|split; [|done]].
  - by apply get_set_ne.
  - by apply lookup_app_l.
Qed.

Lemma observe_frame_witness :
  JsMap.get id1 (observers (loader world2))
    = JsMap.get id1 (observers (loader world1)) /\
  platform world2 !! 0 = platform world1 !! 0 /\
  sameConfig (loader world2) (loader world1).
Proof.
  apply (observe_frame "0.k3" "0.9f" (UserFn 4) 8 None world1 id1 0).
  - discriminate.
  - simpl. lia.
Defined.

Lemma delete_set_fresh id v (m : ObserverMap) :
  JsMap.get id m = None -> JsMap.delete id (JsMap.set id v m) = m.
Proof.
  unfold JsMap.delete. induction m as [|[k v'] m IH]; simpl.
  - intros _. rewrite filter_cons. simpl. by destruct (decide (id <> id)).
  - destruct (decide (k = id)) as [|Hk]; [done|]. intros Hg.
    rewrite filter_cons. simpl. destruct (decide (k <> id)); [|done].
    f_equal. by apply IH.
Qed.

Lemma keys_set_fresh id v (m : ObserverMap) :
  JsMap.get id m = None ->
  JsMap.keys (JsMap.set id v m) = JsMap.keys m ++ [id].
Proof.
  intros Hg%get_None_key. rewrite keys_set. by rewrite bool_decide_eq_false_2.
Qed.

(** Registering under an id the map does not hold and then calling the
    returned stop function gives back the loader as it was: the map has its
    former bindings in their former order.  The before-hook runs once with
    the new id as last key, the after-hook once with the former keys, the
    callback never, and the new observer tracks nothing in the end. *)
Theorem observe_then_stop_restores_loader r1 r2 callback el options w :
  JsMap.get (generateId r1 r2) (observers (loader w)) = None ->
  let res := (id <- observe r1 r2 callback el options ;; stop id) w in
  let o := length (platform w) in
  let keys := JsMap.keys (observers (loader w)) in
  loader (world_of res) = loader w /\
  trace_of res =
    [EvNewObserver o (threshold (loader w)) (rootMargin (loader w));
     EvObserve o el;
     EvSet (generateId r1 r2);
     EvBefore (default Noop (supplied options opt_beforeUnobserve)) el o
              (keys ++ [generateId r1 r2]);
     EvUnobserve o el;
     EvDelete (generateId r1 r2);
     EvAfter (default Noop (supplied options opt_afterUnobserve)) el o keys] /\
  count isCallback (trace_of res) = 0 /\
  (forall t, tracks (platform (world_of res)) o t = false).
Proof.
  intros Hfresh res o keys. subst res o keys. unfold bind.
  rewrite observe_spec. unfold stop.
  erewrite unobserve_present; [|apply get_set_eq].
  unfold world_of, trace_of, afterStop, afterObserve. simpl.
  rewrite (delete_set_fresh _ _ _ Hfresh), (keys_set_fresh _ _ _ Hfresh).
  split; [by destruct (loader w)|]. split; [by destruct options|].
  split; [done|]. intros t.
  unfold tracks, Platform.unobserve.
  erewrite update_lookup_eq; [|by apply list_lookup_middle]. simpl.
  apply bool_decide_eq_false. intros Hin%list_elem_of_filter.
  destruct Hin as [Hne Hin]. apply list_elem_of_singleton in Hin. done.
Qed.

Lemma observe_then_stop_restores_loader_witness :
  loader (world_of ((id <- observe "0.k3" "0.9f" (UserFn 4) 8 None ;; stop id)
                      world1))
  = loader world1.
Proof.
  apply (observe_then_stop_restores_loader "0.k3" "0.9f" (UserFn 4) 8 None world1).
  reflexivity.
Defined.

(** ** A registration that draws an id already in the map *)

Lemma values_set_replaced id v r0 r (m : ObserverMap) :
  JsMap.get id m = Some r0 ->
  NoDup (map observer (JsMap.values m)) ->
  r ∈ JsMap.values (JsMap.set id v m) ->
  r = v \/ (r ∈ JsMap.values m /\ observer r <> observer r0).
Proof.
  induction m as [|[k v'] m IH]; simpl; [done|].
  intros Hg [Hv' Hm]%NoDup_cons.
  destruct (decide (k = id)) as [->|Hk]; simpl.
  - injection Hg as ->. intros [->|Hin]%elem_of_cons; [by left|].
    right. split; [by right|]. intros Heq. apply Hv'.
    apply list_elem_of_fmap. eauto.
  - intros [->|Hin]%elem_of_cons.
    + right. split; [left|]. intros Heq. apply Hv'.
      apply list_elem_of_fmap. exists r0. split; [done|].
      by eapply get_Some_value.
    + destruct (IH Hg Hm Hin) as [->|[Hr Hne]]; [by left|].
      right. split; [by right|done].
Qed.

Lemma tracks_disconnectAll_other rs p o t :
  o ∉ map observer rs -> tracks (disconnectAll rs p) o t = tracks p o t.
Proof.
  revert p. induction rs as [|r rs IH]; intros p Ho; [done|].
  simpl in *. apply not_elem_of_cons in Ho as [Hne Ho].
  rewrite IH by done. unfold Platform.disconnect. by apply tracks_update_ne.
Qed.

(** When [observe] draws an id the map already holds, the new record takes
    the place of the old one under the same key: the keys are unchanged and
    no record refers to the old observer any more.  That observer keeps
    tracking what it tracked, and neither the stop function of the id nor
    [disconnect] reaches it. *)
Theorem observe_same_id_orphans_observer r1 r2 callback el options w r0 :
  wf w ->
  JsMap.get (generateId r1 r2) (observers (loader w)) = Some r0 ->
  let id := generateId r1 r2 in
  let w1 := world_of (observe r1 r2 callback el options w) in
  JsMap.keys (observers (loader w1)) = JsMap.keys (observers (loader w)) /\
  JsMap.get id (observers (loader w1)) = Some (newRecord w el options) /\
  (observer r0 ∉ map observer (JsMap.values (observers (loader w1)))) /\
  (forall t,
     tracks (platform w1) (observer r0) t = tracks (platform w) (observer r0) t /\
     tracks (platform (world_of (stop id w1))) (observer r0) t
       = tracks (platform w) (observer r0) t /\
     tracks (platform (world_of (disconnect w1))) (observer r0) t
       = tracks (platform w) (observer r0) t).
Proof.
  intros Hwf Hg id w1. subst id w1. rewrite observe_spec.
  pose proof Hwf as (_ & Hobs & Hlt). rewrite Forall_forall in Hlt.
  assert (Hr0 : observer r0 < length (platform w)).
  { apply Hlt. by eapply get_Some_value. }
  unfold world_of. simpl.
  assert (Hout : observer r0 ∉ map observer
            (JsMap.values (JsMap.set (generateId r1 r2) (newRecord w el options)
                                     (observers (loader w))))).
  { intros (r & Hr & Hin)%list_elem_of_fmap.
    destruct (values_set_replaced _ _ _ _ _ Hg Hobs Hin) as [->|[_ Hne]].
    - simpl in Hr. lia.
    - done. }
  split; [|split; [|split; [done|]]].
  - rewrite keys_set, bool_decide_eq_true_2; [done|]. by eapply get_Some_key.
  - apply get_set_eq.
  - intros t. split; [by apply tracks_app_old|]. split.
    + unfold stop. erewrite unobserve_present; [|apply get_set_eq].
      unfold afterStop, Platform.unobserve, newRecord. simpl.
      rewrite tracks_update_ne by lia. by apply tracks_app_old.
    + rewrite disconnect_spec. simpl.
      rewrite tracks_disconnectAll_other by done. by apply tracks_app_old.
Qed.

Lemma observe_same_id_orphans_observer_witness :
  JsMap.keys (observers (loader worldCollided)) = [id1] /\
  tracks (platform (world_of (disconnect worldCollided))) 0 7 = true.
Proof.
  destruct (observe_same_id_orphans_observer
              "0.abcdefghijklmnopq" "0.xyz" (UserFn 5) 9 None world1
              (mkObserverRecord 0 7 (UserFn 2) (UserFn 3)))
    as (Hkeys & _ & _ & Htracks).
  - apply reachable_wf. exists None,
      [OpObserve "0.abcdefghijklmnopq" "0.xyz" (UserFn 1) 7 (Some sampleOptions)].
    reflexivity.
  - reflexivity.
  - split; [exact Hkeys|]. destruct (Htracks 7) as (_ & _ & Hd). exact Hd.
Defined.

(** ** The handler *)

Lemma unobserveAll_untracked o es p e :
  e ∈ es -> isIntersecting e = true ->
  tracks (unobserveAll o es p) o (target e) = false.
Proof.
  intros Hin He. unfold tracks.
  destruct (p !! o) as [io|] eqn:Hio.
  - rewrite (unobserveAll_lookup_eq _ _ _ _ Hio). simpl.
    apply bool_decide_eq_false. intros [Hout _]%list_elem_of_filter.
    apply Hout. apply list_elem_of_fmap. exists e. split; [done|].
    apply list_elem_of_In, filter_In. split; [|done]. by apply list_elem_of_In.
  - replace (unobserveAll o es p !! o) with (@None IntersectionObserver); [done|].
    symmetry. apply lookup_ge_None. rewrite unobserveAll_length.
    by apply lookup_ge_None.
Qed.

(** Whatever batch the handler is given, it calls the callback once for
    every intersecting entry, in the order of the batch, each call followed
    by [unobserve] of that entry's target; it calls no hook, leaves the
    loader (the map included) as it was, and afterwards the observer tracks
    none of the targets reported intersecting. *)
Theorem handler_fires_each_intersecting_entry callback es o w :
  let res := handler callback es o w in
  trace_of res
    = flat_map (fire callback o (JsMap.keys (observers (loader w)))) es /\
  count isCallback (trace_of res) = length (List.filter isIntersecting es) /\
  count isHook (trace_of res) = 0 /\
  loader (world_of res) = loader w /\
  length (platform (world_of res)) = length (platform w) /\
  (forall e, e ∈ es -> isIntersecting e = true ->
             tracks (platform (world_of res)) o (target e) = false).
Proof.
  intros res. subst res. destruct w as [l p]. rewrite handler_spec.
  unfold trace_of, world_of. simpl.
  split; [done|]. split; [apply fire_count|]. split; [apply fire_no_hook|].
  split; [done|]. split; [apply unobserveAll_length|].
  intros e. apply unobserveAll_untracked.
Qed.

Lemma handler_fires_each_intersecting_entry_witness :
  tracks (platform (world_of (handler (UserFn 1)
                                [mkEntry 7 false; intersecting7] 0 world1)))
         0 7 = false.
Proof.
  destruct (handler_fires_each_intersecting_entry
              (UserFn 1) [mkEntry 7 false; intersecting7] 0 world1)
    as (_ & _ & _ & _ & _ & Huntracked).
  apply (Huntracked intersecting7).
  - right. left.
  - reflexivity.
Defined.

(** ** After the stop function and after [disconnect] *)






(** ** Invariants of reachable worlds *)

Lemma run_cons op ops w :
  world_of (run (op :: ops) w) = world_of (run ops (world_of (step op w))).
Proof.
  unfold run. simpl forEach. unfold bind, world_of.
  destruct (step op w) as [[[] w1] t1]. simpl.
  by destruct (forEach step ops w1) as [[[] w2] t2].
Qed.

Lemma run_invariant (P : World -> Prop) :
  (forall op w, P w -> P (world_of (step op w))) ->
  forall ops w, P w -> P (world_of (run ops w)).
Proof.
  intros Hstep ops. induction ops as [|op ops IH]; intros w Hw; [done|].
  rewrite run_cons. by apply IH, Hstep.
Qed.

Lemma step_observe r1 r2 callback el options w :
  world_of (step (OpObserve r1 r2 callback el options) w)
  = afterObserve (generateId r1 r2) callback el options w.
Proof. unfold step, bind. by rewrite observe_spec. Qed.

Lemma step_stop id w :
  world_of (step (OpStop id) w)
  = match JsMap.get id (observers (loader w)) with
    | Some r => afterStop id r w
    | None => w
    end.
Proof.
  unfold step, stop. destruct (JsMap.get id (observers (loader w))) eqn:Hg.
  - by rewrite (unobserve_present _ _ _ Hg).
  - by rewrite (unobserve_absent _ _ Hg).
Qed.

Lemma tracks_update_shrink o o' f p t :
  (forall ts x, x ∈ f ts -> x ∈ ts) ->
  tracks (Platform.update o f p) o' t = true -> tracks p o' t = true.
Proof.
  intros Hf. destruct (decide (o' = o)) as [->|Hne].
  - unfold tracks. destruct (p !! o) as [io|] eqn:Hio.
    + rewrite (update_lookup_eq _ _ _ _ Hio). simpl.
      rewrite !bool_decide_eq_true. apply Hf.
    + by rewrite update_lookup_None.
  - by rewrite tracks_update_ne.
Qed.

Lemma tracks_unobserve_shrink o el o' p t :
  tracks (Platform.unobserve o el p) o' t = true -> tracks p o' t = true.
Proof.
  apply tracks_update_shrink. intros ts x Hin%list_elem_of_filter. tauto.
Qed.

Lemma tracks_unobserveAll_shrink o es o' p t :
  tracks (unobserveAll o es p) o' t = true -> tracks p o' t = true.
Proof.
  revert p. induction es as [|e es IH]; intros p; [done|]. simpl.
  intros H%IH. destruct (isIntersecting e); [|done].
  by eapply tracks_unobserve_shrink.
Qed.

Lemma ownTargets_step op w :
  wf w -> ownTargets w -> ownTargets (world_of (step op w)).
Proof.
  intros Hwf Hown.
  destruct op as [r1 r2 callback el options|id| |o es].
  - rewrite step_observe. intros id' r' t Hin%elem_value. simpl in *.
    apply values_set in Hin as [->|Hin].
    + unfold tracks, newRecord. simpl. rewrite list_lookup_middle by done.
      simpl. by intros ?%bool_decide_eq_true%list_elem_of_singleton.
    + pose proof Hwf as (_ & _ & Hlt). rewrite Forall_forall in Hlt.
      rewrite tracks_app_old by by apply Hlt.
      apply list_elem_of_fmap in Hin as ([k v] & -> & Hin). by apply (Hown k).
  - rewrite step_stop.
    destruct (JsMap.get id (observers (loader w))) as [r|]; [|done].
    intros id' r' t Hin Ht. simpl in *.
    apply list_elem_of_filter in Hin as [_ Hin].
    apply (Hown id'); [done|]. by eapply tracks_unobserve_shrink.
  - unfold step. rewrite disconnect_spec. intros id r t Hin. inversion Hin.
  - unfold step. rewrite deliver_spec.
    destruct (platform w !! o) as [io|]; [|done].
    intros id' r' t Hin Ht. unfold world_of in *. simpl in *.
    apply (Hown id'); [done|]. by eapply tracks_unobserveAll_shrink.
Qed.

(** In every world the class can reach, the keys of the map are pairwise
    distinct, the records own pairwise distinct observers, each of them one
    the platform created, and the observer of a record tracks nothing but
    the record's element. *)
Theorem reachable_records_own_their_observers w :
  reachable w ->
  NoDup (JsMap.keys (observers (loader w))) /\
  NoDup (map observer (JsMap.values (observers (loader w)))) /\
  (forall id r, JsMap.get id (observers (loader w)) = Some r ->
     observer r < length (platform w) /\
     (forall t, tracks (platform w) (observer r) t = true -> t = element r)).
Proof.
  intros (options & ops & ->).
  assert (Hinv : wf (world_of (run ops (newWorld options))) /\
                 ownTargets (world_of (run ops (newWorld options)))).
  { apply (run_invariant (fun w => wf w /\ ownTargets w)).
    - intros op w [Hwf Hown]. split; [by apply wf_step|by apply ownTargets_step].
    - split; [apply wf_newWorld|]. intros id r t Hin. inversion Hin. }
  destruct Hinv as [(Hk & Ho & Hlt) Hown].
  split; [done|]. split; [done|]. intros id r Hg. split.
  - rewrite Forall_forall in Hlt. apply Hlt. by eapply get_Some_value.
  - intros t. apply (Hown id). by apply get_Some_elem.
Qed.

Lemma reachable_records_own_their_observers_witness :
  NoDup (JsMap.keys (observers (loader worldFired))) /\
  NoDup (map observer (JsMap.values (observers (loader worldFired)))) /\
  (forall id r, JsMap.get id (observers (loader worldFired)) = Some r ->
     observer r < length (platform worldFired) /\
     (forall t, tracks (platform worldFired) (observer r) t = true ->
                t = element r)).
Proof.
  apply (reachable_records_own_their_observers worldFired).
  exists None,
    [OpObserve "0.abcdefghijklmnopq" "0.xyz" (UserFn 1) 7 (Some sampleOptions);
     OpDeliver 0 [intersecting7]].
  reflexivity.
Defined.

Lemma update_Forall (P : IntersectionObserver -> Prop) o f p :
  (forall io ts, P io -> P (withTargets io ts)) ->
  Forall P p -> Forall P (Platform.update o f p).
Proof.
  intros HP Hp. unfold Platform.update.
  destruct (p !! o) as [io|] eqn:Hio; [|done].
  apply Forall_insert; [done|]. apply HP.
  rewrite Forall_forall in Hp. apply Hp. by eapply list_elem_of_lookup_2.
Qed.

Lemma disconnectAll_Forall (P : IntersectionObserver -> Prop) rs p :
  (forall io ts, P io -> P (withTargets io ts)) ->
  Forall P p -> Forall P (disconnectAll rs p).
Proof.
  intros HP. revert p. induction rs as [|r rs IH]; intros p Hp; [done|].
  simpl. apply IH. by apply update_Forall.
Qed.

Lemma unobserveAll_Forall (P : IntersectionObserver -> Prop) o es p :
  (forall io ts, P io -> P (withTargets io ts)) ->
  Forall P p -> Forall P (unobserveAll o es p).
Proof.
  intros HP. revert p. induction es as [|e es IH]; intros p Hp; [done|].
  simpl. apply IH. destruct (isIntersecting e); [|done].
  by apply update_Forall.
Qed.

Lemma disconnectAll_length rs p : length (disconnectAll rs p) = length p.
Proof.
  revert p. induction rs as [|r rs IH]; intros p; [done|]. simpl.
  rewrite IH. apply update_length.
Qed.

Lemma step_platform_length op w :
  length (platform (world_of (step op w)))
  = length (platform w) + (if isObserveOp op then 1 else 0).
Proof.
  destruct op as [r1 r2 callback el options|id| |o es].
  - rewrite step_observe. simpl. by rewrite length_app.
  - rewrite step_stop. simpl.
    destruct (JsMap.get id (observers (loader w))) as [r|]; simpl; [|lia].
    unfold Platform.unobserve. rewrite update_length. lia.
  - unfold step. rewrite disconnect_spec. unfold world_of. simpl.
    rewrite disconnectAll_length. lia.
  - unfold step. rewrite deliver_spec.
    destruct (platform w !! o) as [io|]; unfold world_of; simpl; [|lia].
    rewrite unobserveAll_length. lia.
Qed.

Lemma run_platform_length ops w :
  length (platform (world_of (run ops w)))
  = length (platform w) + observeCalls ops.
Proof.
  revert w. induction ops as [|op ops IH]; intros w.
  - unfold observeCalls, run, world_of. simpl. lia.
  - rewrite run_cons, IH, step_platform_length. unfold observeCalls. simpl.
    destruct (isObserveOp op); simpl; lia.
Qed.

Lemma step_configured l op w :
  sameConfig (loader w) l -> Forall (configuredAs l) (platform w) ->
  Forall (configuredAs l) (platform (world_of (step op w))).
Proof.
  intros [Hth Hrm] Hp.
  assert (HP : forall io ts, configuredAs l io -> configuredAs l (withTargets io ts))
    by done.
  destruct op as [r1 r2 callback el options|id| |o es].
  - rewrite step_observe. simpl. apply Forall_app. split; [done|].
    by repeat constructor.
  - rewrite step_stop.
    destruct (JsMap.get id (observers (loader w))) as [r|]; [|done].
    simpl. by apply update_Forall.
  - unfold step. rewrite disconnect_spec. unfold world_of. simpl.
    by apply disconnectAll_Forall.
  - unfold step. rewrite deliver_spec.
    destruct (platform w !! o) as [io|]; [|done].
    unfold world_of. simpl. by apply unobserveAll_Forall.
Qed.

(** Whatever is done with a loader after [new LazyLoader(options)], its
    threshold and rootMargin stay those of the construction, every observer
    it has created was built with exactly these two values, and it has
    created one observer for each [observe] call: observers are neither
    shared between registrations nor ever discarded. *)
Theorem observers_share_construction_config options ops :
  let w := world_of (run ops (newWorld options)) in
  sameConfig (loader w) (constructor options) /\
  Forall (configuredAs (constructor options)) (platform w) /\
  length (platform w) = observeCalls ops.
Proof.
  intros w. subst w. split; [apply run_config|]. split.
  - apply (run_invariant
             (fun w => sameConfig (loader w) (constructor options) /\
                       Forall (configuredAs (constructor options)) (platform w)));
      [|by split].
    intros op w [Hcfg Hp]. split.
    + destruct (step_config op w) as [H1 H2]. destruct Hcfg as [H3 H4].
      split; congruence.
    + by apply step_configured.
  - by rewrite run_platform_length.
Qed.

Lemma allActive_quiet_step op w :
  quietOp op -> wf w -> allActive w -> allActive (world_of (step op w)).
Proof.
  intros Hq Hwf Hact. destruct op as [r1 r2 callback el options|id| |o es].
  - rewrite step_observe. by apply allActive_observe.
  - by apply allActive_unobserve.
  - apply allActive_disconnect.
  - unfold step. simpl in Hq. by rewrite (deliver_quiet _ _ _ Hq).
Qed.

(** As long as no intersecting report has been delivered, every record of
    the map has an observer that tracks the record's element: [observe], the
    stop functions, [disconnect] and deliveries of non-intersecting reports
    keep it so. *)
Theorem records_active_until_first_firing options ops :
  Forall quietOp ops ->
  allActive (world_of (run ops (newWorld options))).
Proof.
  intros Hq.
  assert (Hgen : forall w, wf w -> allActive w -> allActive (world_of (run ops w))).
  { induction Hq as [|op ops Hop _ IH]; intros w Hwf Hact; [done|].
    rewrite run_cons. apply IH; [by apply wf_step|].
    by apply allActive_quiet_step. }
  apply Hgen; [apply wf_newWorld|]. intros id r Hin. inversion Hin.
Qed.

Lemma records_active_until_first_firing_witness :
  allActive
    (world_of (run [OpObserve "0.abcdefghijklmnopq" "0.xyz" (UserFn 1) 7
                              (Some sampleOptions);
                    OpDeliver 0 [mkEntry 7 false];
                    OpObserve "0.k3" "0.9f" (UserFn 4) 8 None;
                    OpStop id1]
                   (newWorld None))).
Proof.
  apply (records_active_until_first_firing None).
  repeat constructor.
Defined.

(** ** Calls made over a whole run *)

Lemma run_cons_trace op ops w :
  trace_of (run (op :: ops) w)
  = trace_of (step op w) ++ trace_of (run ops (world_of (step op w))).
Proof.
  unfold run. simpl forEach. unfold bind, trace_of, world_of.
  destruct (step op w) as [[[] w1] t1]. simpl.
  by destruct (forEach step ops w1) as [[[] w2] t2].
Qed.

Lemma step_hooks_paired op w :
  count isBefore (trace_of (step op w)) = count isAfter (trace_of (step op w)).
Proof.
  destruct op as [r1 r2 callback el options|id| |o es]; unfold step.
  - unfold bind. by rewrite observe_spec.
  - unfold stop. destruct (JsMap.get id (observers (loader w))) as [r|] eqn:Hg.
    + by rewrite (unobserve_present _ _ _ Hg).
    + by rewrite (unobserve_absent _ _ Hg).
  - rewrite disconnect_spec. unfold trace_of. simpl. rewrite !count_app.
    destruct (count_teardown (JsMap.keys (observers (loader w)))
                (JsMap.values (observers (loader w)))) as (Hb & Ha & _).
    by rewrite Hb, Ha.
  - rewrite deliver_spec. destruct (platform w !! o) as [io|]; [|done].
    unfold trace_of. simpl.
    pose proof (fire_no_hook (io_callback io) o
                  (JsMap.keys (observers (loader w))) (reported w o es)) as Hh.
    unfold count, isHook in *.
    set (t := flat_map _ _) in *. clearbody t.
    induction t as [|e t IH]; [done|]. simpl in *.
    destruct (isBefore e), (isAfter e); simpl in *; try done; by apply IH.
Qed.

Lemma step_quiet_no_callback op w :
  quietOp op -> count isCallback (trace_of (step op w)) = 0.
Proof.
  intros Hq. destruct op as [r1 r2 callback el options|id| |o es]; unfold step.
  - unfold bind. by rewrite observe_spec.
  - unfold stop. destruct (JsMap.get id (observers (loader w))) as [r|] eqn:Hg.
    + by rewrite (unobserve_present _ _ _ Hg).
    + by rewrite (unobserve_absent _ _ Hg).
  - rewrite disconnect_spec. unfold trace_of. simpl. rewrite count_app.
    destruct (count_teardown (JsMap.keys (observers (loader w)))
                (JsMap.values (observers (loader w)))) as (_ & _ & Hc).
    by rewrite Hc.
  - simpl in Hq. by rewrite (deliver_quiet _ _ _ Hq).
Qed.

(** Over any sequence of registrations, stop calls, [disconnect] calls and
    deliveries, the before-hooks and the after-hooks are called equally
    often; and the callbacks are not called at all unless an intersecting
    report is delivered: stopping and disconnecting never fire them. *)
Theorem run_pairs_hooks_and_fires_only_on_reports ops w :
  count isBefore (trace_of (run ops w)) = count isAfter (trace_of (run ops w)) /\
  (Forall quietOp ops -> count isCallback (trace_of (run ops w)) = 0).
Proof.
  split.
  - revert w. induction ops as [|op ops IH]; intros w; [done|].
    by rewrite run_cons_trace, !count_app, step_hooks_paired, IH.
  - intros Hq. revert w. induction Hq as [|op ops Hop _ IH]; intros w; [done|].
    by rewrite run_cons_trace, count_app, step_quiet_no_callback, IH.
Qed.

Lemma run_pairs_hooks_and_fires_only_on_reports_witness :
  count isCallback
    (trace_of (run [OpStop id1; OpDeliver 0 [mkEntry 7 false]; OpDisconnect]
                   world2)) = 0.
Proof.
  destruct (run_pairs_hooks_and_fires_only_on_reports
              [OpStop id1; OpDeliver 0 [mkEntry 7 false]; OpDisconnect] world2)
    as [_ Hquiet].
  apply Hquiet. repeat constructor.
Defined.
